(** * Slideshow: photo catalogue, slide generation, score, MILP model

    A shallow embedding of [slideshow.py].  Python integers are [Z],
    tag sets are [gset string], tuples are products, lists are lists and
    exceptions are the [Raise] case of a small error monad.  The solver is
    an external collaborator: the model handed to it is data (variables,
    linear constraints, quadratic objective), and the values it reports for
    the variables are an assignment [Var -> Q]. *)

#[local] Set Warnings "-clear-no-such-hyp".
From Stdlib Require Import ZArith QArith Lia Lqa Ascii.
From stdpp Require Import base gmap sets list strings pretty sorting.

Local Open Scope Z_scope.

(** ** Python exceptions and the error monad *)

Inductive exn : Type :=
  | ValueError
  | IndexError
  | KeyError
  | AttributeError
  | FileNotFoundError.

Inductive result (A : Type) : Type :=
  | Ok (a : A)
  | Raise (e : exn).

Arguments Ok {A} a.
Arguments Raise {A} e.

#[global] Instance result_ret : MRet result := λ A a, Ok a.
#[global] Instance result_bind : MBind result := λ A B f m,
  match m with
  | Ok a => f a
  | Raise e => Raise e
  end.

Definition of_option {A} (e : exn) (o : option A) : result A :=
  match o with
  | Some a => Ok a
  | None => Raise e
  end.

(** A [for] loop over [xs] that threads the loop state and stops at the
    first exception. *)
Fixpoint for_ {I S : Type} (xs : list I) (body : I → S → result S) (s : S)
    : result S :=
  match xs with
  | [] => Ok s
  | x :: xs' => s' ← body x s; for_ xs' body s'
  end.

(** ** Python built-ins used by the program

    Text is a sequence of ASCII characters; a file object is the text that
    is still to be read.  Decoding is not modelled: on a file with a byte
    that is not ASCII the text layer may raise while decoding a block, so
    statements about what is left unread assume [isascii]. *)

Module Py.

Definition nl : string := String "010"%char "".

(** [len] of a set and of a list. *)
Definition len_set (s : gset string) : Z := Z.of_nat (size s).
Definition len {A} (l : list A) : Z := Z.of_nat (length l).

(** [min(x, y, ...)]: the running minimum is replaced only by a strictly
    smaller item. *)
Definition min (x : Z) (xs : list Z) : Z :=
  foldl (λ m y, if y <? m then y else m) x xs.

(** [range(n)] for an integer [n]; empty when [n <= 0]. *)
Definition range (n : Z) : list nat := seq 0 (Z.to_nat n).

(** [range(a, b)] on list indices. *)
Definition range2 (a b : nat) : list nat := seq a (b - a).

(** [str.isspace] on one ASCII character: space, tab to carriage return,
    and the four separators 28..31. *)
Definition isspace (c : ascii) : bool :=
  let n := nat_of_ascii c in
  ((n =? 32) || ((9 <=? n) && (n <=? 13)) || ((28 <=? n) && (n <=? 31)))%nat.

(** [s.isascii()] *)
Fixpoint isascii (s : string) : bool :=
  match s with
  | EmptyString => true
  | String c s' => (nat_of_ascii c <? 128)%nat && isascii s'
  end.

(** [f.readline()] on a file opened in text mode: the next line with its
    terminator, and the rest of the file; the empty string at end of file.
    The terminators [\n], [\r\n] and [\r] are all read as [\n]. *)
Fixpoint readline (f : string) : string * string :=
  match f with
  | EmptyString => (EmptyString, EmptyString)
  | String c f' =>
      if Ascii.eqb c "010" then (nl, f')
      else if Ascii.eqb c "013" then
        (nl, match f' with
             | String "010" f'' => f''
             | _ => f'
             end)
      else let '(l, r) := readline f' in (String c l, r)
  end.

Fixpoint lstrip (s : string) : string :=
  match s with
  | EmptyString => EmptyString
  | String c s' => if isspace c then lstrip s' else s
  end.

Definition rstrip (s : string) : string := String.rev (lstrip (String.rev s)).

(** [s.strip()] *)
Definition strip (s : string) : string := rstrip (lstrip s).

(** [s.split()]: the maximal runs of non-space characters. *)
Fixpoint split_go (s cur : string) : list string :=
  match s with
  | EmptyString => if decide (cur = EmptyString) then [] else [cur]
  | String c s' =>
      if isspace c
      then (if decide (cur = EmptyString) then split_go s' EmptyString
            else cur :: split_go s' EmptyString)
      else split_go s' (cur +:+ String c EmptyString)
  end.

Definition split (s : string) : list string := split_go s EmptyString.

Definition digit (c : ascii) : option Z :=
  let n := nat_of_ascii c in
  if ((48 <=? n) && (n <=? 57))%nat then Some (Z.of_nat (n - 48)) else None.

(** Decimal digits, with single underscores allowed between digits. *)
Fixpoint int_digits (s : string) (acc : Z) (after_digit : bool) : option Z :=
  match s with
  | EmptyString => if after_digit then Some acc else None
  | String c s' =>
      match digit c with
      | Some d => int_digits s' (10 * acc + d) true
      | None =>
          if Ascii.eqb c "_" && after_digit then int_digits s' acc false
          else None
      end
  end.

(** The white space that [int] skips in ASCII text: space and tab to
    carriage return.  The separators 28..31, which [strip] and [split]
    treat as white space, are not skipped. *)
Definition isspace_int (c : ascii) : bool :=
  let n := nat_of_ascii c in
  ((n =? 32) || ((9 <=? n) && (n <=? 13)))%nat.

Fixpoint lstrip_int (s : string) : string :=
  match s with
  | EmptyString => EmptyString
  | String c s' => if isspace_int c then lstrip_int s' else s
  end.

Definition strip_int (s : string) : string :=
  String.rev (lstrip_int (String.rev (lstrip_int s))).

(** [int(s)] on a string: the white space around the literal is skipped,
    then an optional sign and a decimal literal; anything else is a
    ValueError.  (The interpreter's cap on the number of digits is not
    modelled.) *)
Definition int (s : string) : result Z :=
  let s := strip_int s in
  let '(neg, body) :=
    match s with
    | String "-" r => (true, r)
    | String "+" r => (false, r)
    | _ => (false, s)
    end in
  match int_digits body 0 false with
  | Some v => Ok (if neg : bool then - v else v)
  | None => Raise ValueError
  end.

(** [l[i]] for a non-negative literal index. *)
Definition index {A} (l : list A) (i : nat) : result A :=
  of_option IndexError (l !! i).

(** Bound of a slice on a sequence of length [L]: a negative bound counts
    from the end, and bounds are clamped to [0, L]. *)
Definition slice_bound (L i : Z) : Z :=
  if i <? 0 then Z.max 0 (i + L) else Z.min i L.

(** [l[start:stop]] *)
Definition slice {A} (l : list A) (start stop : Z) : list A :=
  let L := len l in
  let a := slice_bound L start in
  let b := slice_bound L stop in
  take (Z.to_nat (b - a)) (drop (Z.to_nat a) l).

(** [sep.join(l)] *)
Fixpoint join (sep : string) (l : list string) : string :=
  match l with
  | [] => EmptyString
  | [s] => s
  | s :: l' => s +:+ sep +:+ join sep l'
  end.

(** [str(n)] for a non-negative integer. *)
Definition str (n : nat) : string := pretty n.

End Py.

(** ** Photo catalogue *)

(** A photo is the tuple [(i, orientation, tags)]. *)
Definition photo : Type := nat * string * gset string.

Definition photo_id (p : photo) : nat := p.1.1.
Definition photo_orientation (p : photo) : string := p.1.2.
Definition photo_tags (p : photo) : gset string := p.2.

(** Line 12: the tokens of a line read from the file. *)
Definition jetons (l : string) : list string := Py.split (Py.strip l).

(** Lines 12-16: one record. *)
Definition lire_ligne (i : nat) (l : string) : result photo :=
  let line := jetons l in
  orientation ← Py.index line 0;
  tok ← Py.index line 1;
  num_tags ← Py.int tok;
  let tags : gset string := list_to_set (Py.slice line 2 (2 + num_tags)) in
  Ok (i, orientation, tags).

(** The loop of lines 11-16 over the open file [f]. *)
Fixpoint lire_lignes (idx : list nat) (f : string) (photos : list photo)
    : result (list photo) :=
  match idx with
  | [] => Ok photos
  | i :: idx' =>
      let '(l, f') := Py.readline f in
      p ← lire_ligne i l;
      lire_lignes idx' f' (photos ++ [p])
  end.

(** The file system maps a path to the text of the file, if it exists. *)
Definition lire_input (fs : string → option string) (filename : string)
    : result (list photo) :=
  f ← of_option FileNotFoundError (fs filename);
  let '(l, f') := Py.readline f in
  n ← Py.int l;
  lire_lignes (Py.range n) f' [].

(** ** Slide generator *)

(** A slide is the tuple [(photo_ids, tags)]. *)
Definition slide : Type := list nat * gset string.

Definition slide_horizontale (p : photo) : slide := ([photo_id p], photo_tags p).

Definition creer_slides (photos : list photo) : result (list slide) :=
  let slides : list slide :=
    slide_horizontale <$> filter (λ p, photo_orientation p = "H") photos in
  let verticales : list (nat * gset string) :=
    (λ p, (photo_id p, photo_tags p))
      <$> filter (λ p, photo_orientation p = "V") photos in
  for_ (Py.range (Py.len verticales)) (λ i slides,
    for_ (Py.range2 (i + 1) (length verticales)) (λ j slides,
      '(id1, tags1) ← Py.index verticales i;
      '(id2, tags2) ← Py.index verticales j;
      Ok (slides ++ [([id1; id2], tags1 ∪ tags2)])) slides) slides.

(** ** Score function *)

Definition calculer_score (tags1 tags2 : gset string) : Z :=
  let tags_communs := Py.len_set (tags1 ∩ tags2) in
  let tags_uniquement_1 := Py.len_set (tags1 ∖ tags2) in
  let tags_uniquement_2 := Py.len_set (tags2 ∖ tags1) in
  Py.min tags_communs [tags_uniquement_1; tags_uniquement_2].

(** ** Optimisation model

    The solver's objects are data.  A variable is identified by the key
    [(i, pos)] under which [addVar] created it: one fresh binary variable
    per key. *)

Definition Var : Type := nat * nat.

Inductive vtype : Type := BINARY.

Record VarDecl : Type := {
  v_var : Var;
  v_type : vtype;
  v_name : string
}.

Inductive sense : Type := LessEqual | GreaterEqual.

(** A linear constraint: the sum of the variables of [c_lhs] (a variable
    counts once per occurrence) compared with the integer [c_rhs]. *)
Record Constr : Type := {
  c_lhs : list Var;
  c_sense : sense;
  c_rhs : Z;
  c_name : option string
}.

(** The objective is a sum of terms [score * x * y], to be maximised. *)
Record Model : Type := {
  m_vars : list VarDecl;
  m_constrs : list Constr;
  m_objective : list (Z * Var * Var);
  TimeLimit : option Z
}.

Definition addConstr (c : Constr) (m : Model) : Model :=
  {| m_vars := m_vars m; m_constrs := m_constrs m ++ [c];
     m_objective := m_objective m; TimeLimit := TimeLimit m |}.

Definition setObjective (obj : list (Z * Var * Var)) (m : Model) : Model :=
  {| m_vars := m_vars m; m_constrs := m_constrs m;
     m_objective := obj; TimeLimit := TimeLimit m |}.

Definition set_TimeLimit (t : Z) (m : Model) : Model :=
  {| m_vars := m_vars m; m_constrs := m_constrs m;
     m_objective := m_objective m; TimeLimit := Some t |}.

(** Lines 50-53: the variables and the dictionary [slide_vars]. *)
Definition nom_variable (i pos : nat) : string :=
  "slide_" +:+ Py.str i +:+ "_pos_" +:+ Py.str pos.

Definition decl (i pos : nat) : VarDecl :=
  {| v_var := (i, pos); v_type := BINARY; v_name := nom_variable i pos |}.

(** Line 53: [addVar] and the store into [slide_vars]. *)
Definition ajouter_variable (i : nat) (st : list VarDecl * gmap (nat * nat) Var)
    (pos : nat) : list VarDecl * gmap (nat * nat) Var :=
  let v : Var := (i, pos) in
  (st.1 ++ [decl i pos], <[(i, pos) := v]> st.2).

Definition creer_variables (n : nat) : list VarDecl * gmap (nat * nat) Var :=
  foldl (λ st i, foldl (ajouter_variable i) st (seq 0 n)) ([], ∅) (seq 0 n).

(** Lines 67-69 on the insertion-ordered dictionary [utilisations_photo]:
    create the entry with an empty list if the key is new, then extend it. *)
Fixpoint etendre (photo_id : nat) (vs : list Var) (d : list (nat * list Var))
    : list (nat * list Var) :=
  match d with
  | [] => [(photo_id, [] ++ vs)]
  | (k, l) :: d' =>
      if decide (k = photo_id) then (k, l ++ vs) :: d'
      else (k, l) :: etendre photo_id vs d'
  end.

(** Lines 64-69: for each photo id, the variables of the slides that show
    it, at every position. *)
Definition utilisations_photo (x : nat → nat → Var) (slides : list slide)
    : list (nat * list Var) :=
  let n := length slides in
  foldl (λ d '(slide_idx, (photo_ids, _)),
    foldl (λ d photo_id,
      etendre photo_id ((λ pos, x slide_idx pos) <$> seq 0 n) d) d photo_ids)
    [] (imap (λ slide_idx s, (slide_idx, s)) slides).

(** Lines 75-80: the scores of consecutive slides. *)
Definition objectif (x : nat → nat → Var) (slides : list slide)
    : list (Z * Var * Var) :=
  let n := length slides in
  foldl (λ obj pos,
    foldl (λ obj i,
      foldl (λ obj j,
        let score :=
          calculer_score (default ∅ (snd <$> slides !! i))
                         (default ∅ (snd <$> slides !! j)) in
        obj ++ [(score, x i pos, x j (pos + 1)%nat)]) obj (seq 0 n))
      obj (seq 0 n))
    [] (Py.range (Py.len slides - 1)).

Definition au_plus_un (lhs : list Var) (name : option string) : Constr :=
  {| c_lhs := lhs; c_sense := LessEqual; c_rhs := 1; c_name := name |}.

Definition au_moins_un (lhs : list Var) : Constr :=
  {| c_lhs := lhs; c_sense := GreaterEqual; c_rhs := 1; c_name := None |}.

Definition nom_contrainte (photo_id : nat) : string :=
  "photo_" +:+ Py.str photo_id +:+ "_unique".

Definition construire_modele (slides : list slide)
    : Model * gmap (nat * nat) Var :=
  let n := length slides in
  let '(decls, slide_vars) := creer_variables n in
  let x (i pos : nat) : Var := slide_vars !!! (i, pos) in
  let model :=
    {| m_vars := decls; m_constrs := []; m_objective := []; TimeLimit := None |} in
  (* each position holds at most one slide *)
  let model :=
    foldl (λ model pos,
      addConstr (au_plus_un ((λ i, x i pos) <$> seq 0 n) None) model)
      model (seq 0 n) in
  (* each slide is used at most once *)
  let model :=
    foldl (λ model i,
      addConstr (au_plus_un ((λ pos, x i pos) <$> seq 0 n) None) model)
      model (seq 0 n) in
  (* each photo is used at most once *)
  let model :=
    foldl (λ model '(photo_id, utilisations),
      addConstr (au_plus_un utilisations (Some (nom_contrainte photo_id))) model)
      model (utilisations_photo x slides) in
  (* objective: scores of consecutive slides *)
  let model := setObjective (objectif x slides) model in
  (* at least one slide, at position 0 *)
  let model := addConstr (au_moins_un ((λ i, x i 0%nat) <$> seq 0 n)) model in
  (model, slide_vars).

(** *** What the solver's values mean *)

(** Value of a linear expression under the values [X] of the variables. *)
Definition valeur (X : Var → Q) (e : list Var) : Q :=
  foldr (λ v acc, X v + acc)%Q 0%Q e.

Definition respecte (X : Var → Q) (c : Constr) : Prop :=
  match c_sense c with
  | LessEqual => (valeur X (c_lhs c) <= inject_Z (c_rhs c))%Q
  | GreaterEqual => (inject_Z (c_rhs c) <= valeur X (c_lhs c))%Q
  end.

(** [X] is an assignment of the model: every declared variable is binary
    and every constraint holds. *)
Definition realisable (m : Model) (X : Var → Q) : Prop :=
  Forall (λ d, X (v_var d) == 0 ∨ X (v_var d) == 1)%Q (m_vars m)
  ∧ Forall (respecte X) (m_constrs m).

(** The same, as a test that computes. *)
Definition respecte_b (X : Var → Q) (c : Constr) : bool :=
  match c_sense c with
  | LessEqual => Qle_bool (valeur X (c_lhs c)) (inject_Z (c_rhs c))
  | GreaterEqual => Qle_bool (inject_Z (c_rhs c)) (valeur X (c_lhs c))
  end.

Definition realisable_b (m : Model) (X : Var → Q) : bool :=
  forallb (λ d, Qeq_bool (X (v_var d)) 0 || Qeq_bool (X (v_var d)) 1) (m_vars m)
  && forallb (respecte_b X) (m_constrs m).

(** The constraints of lines 55-72 alone, without the last one. *)
Definition realisable_au_plus (m : Model) (X : Var → Q) : Prop :=
  Forall (λ d, X (v_var d) == 0 ∨ X (v_var d) == 1)%Q (m_vars m)
  ∧ Forall (λ c, c_sense c = LessEqual → respecte X c) (m_constrs m).

(** ** Solution extraction *)

(** [v.X > 0.5] *)
Definition retenue (x : Q) : bool := negb (Qle_bool x (1 # 2)).

(** Lines 98-101: the first slide whose variable at [pos] exceeds 0.5.
    [X v] is the attribute access [v.X], which raises when the solver has
    no solution to report. *)
Fixpoint chercher (slide_vars : gmap (nat * nat) Var) (X : Var → result Q)
    (pos : nat) (indices : list nat) : result (option nat) :=
  match indices with
  | [] => Ok None
  | i :: indices' =>
      v ← of_option KeyError (slide_vars !! (i, pos));
      x ← X v;
      if retenue x then Ok (Some i) else chercher slide_vars X pos indices'
  end.

(** Lines 96-104. *)
Fixpoint parcourir (slide_vars : gmap (nat * nat) Var) (X : Var → result Q)
    (n : nat) (positions : list nat) (slides_retenues : list nat)
    : result (list nat) :=
  match positions with
  | [] => Ok slides_retenues
  | pos :: positions' =>
      r ← chercher slide_vars X pos (seq 0 n);
      let slides_retenues :=
        match r with
        | Some i => slides_retenues ++ [i]
        | None => slides_retenues
        end in
      if decide (length slides_retenues ≠ (pos + 1)%nat) then Ok slides_retenues
      else parcourir slide_vars X n positions' slides_retenues
  end.

Definition get_solution (slide_vars : gmap (nat * nat) Var)
    (X : Var → result Q) (slides : list slide) : result (list nat) :=
  let n := length slides in
  parcourir slide_vars X n (seq 0 n) [].

(** ** Output *)

(** Lines 115-117 on the text written so far; an exception leaves the file
    with what was already written. *)
Fixpoint ecrire_lignes (slides_retenues : list nat) (slides : list slide)
    (out : string) : string * option exn :=
  match slides_retenues with
  | [] => (out, None)
  | slide_idx :: rest =>
      match slides !! slide_idx with
      | None => (out, Some IndexError)
      | Some (photo_ids, _) =>
          ecrire_lignes rest slides
            (out +:+ Py.join " " (Py.str <$> photo_ids) +:+ Py.nl)
      end
  end.

Definition ecrire_solution (slides_retenues : list nat) (slides : list slide)
    : string * option exn :=
  ecrire_lignes slides_retenues slides
    (Py.str (length slides_retenues) +:+ Py.nl).

(** ** Driver *)

(** What a run does to the outside world, in order. *)
Inductive event : Type :=
  | Print (s : string)
  | Optimize (m : Model)
  | WriteFile (filename content : string).

Inductive status : Type :=
  | Done
  | SysExit (code : Z)
  | Uncaught (e : exn).

Definition usage : string := "Usage: python slideshow.py <fichier_entrée>".

Section driver.

(** The file system and the solver: [optimize m] is the assignment the
    solver reports for [m], if it found one. *)
Variable fs : string → option string.
Variable optimize : Model → option (Var → Q).

Definition main (argv : list string) : list event * status :=
  if decide (length argv ≠ 2%nat) then ([Print usage], SysExit 1)
  else
    let fichier_entree := default EmptyString (argv !! 1%nat) in
    let fichier_sortie := "slideshow.sol" in
    match lire_input fs fichier_entree with
    | Raise e => ([], Uncaught e)
    | Ok photos =>
        match creer_slides photos with
        | Raise e => ([], Uncaught e)
        | Ok slides =>
            let '(model, slide_vars) := construire_modele slides in
            let model := set_TimeLimit 90 model in
            let X : Var → result Q :=
              match optimize model with
              | Some x => λ v, Ok (x v)
              | None => λ _, Raise AttributeError
              end in
            match get_solution slide_vars X slides with
            | Raise e => ([Optimize model], Uncaught e)
            | Ok slides_retenues =>
                match ecrire_solution slides_retenues slides with
                | (content, None) =>
                    ([Optimize model; WriteFile fichier_sortie content], Done)
                | (content, Some e) =>
                    ([Optimize model; WriteFile fichier_sortie content],
                     Uncaught e)
                end
            end
        end
    end.

End driver.

(** ** Vocabulary of the statements *)

(** Binomial coefficient, by Pascal's rule. *)
Fixpoint binom (n k : nat) : nat :=
  match k, n with
  | O, _ => 1
  | S _, O => 0
  | S k', S n' => binom n' k' + binom n' k
  end%nat.

(** Lexicographic order on index pairs. *)
Definition lex_lt (a b : nat * nat) : Prop :=
  (a.1 < b.1 ∨ (a.1 = b.1 ∧ a.2 < b.2))%nat.

(** The index pairs [(i, j)], [a <= i < j < a + m], in the order in which
    two nested loops list them. *)
Definition paires_depuis (a m : nat) : list (nat * nat) :=
  seq a m ≫= λ i, (λ j, (i, j)) <$> seq (i + 1) (a + m - (i + 1)).

(** The file after [k] calls of [readline], and the line that the next
    call returns. *)
Fixpoint apres (k : nat) (f : string) : string :=
  match k with
  | O => f
  | S k' => apres k' (Py.readline f).2
  end.

Definition ligne (f : string) (k : nat) : string := (Py.readline (apres k f)).1.

(** The records of a file: the lines after the header. *)
Definition enregistrement (f : string) (k : nat) : string :=
  ligne (Py.readline f).2 k.

(** The list stored under a key of an insertion-ordered dictionary. *)
Fixpoint assoc (d : list (nat * list Var)) (k : nat) : option (list Var) :=
  match d with
  | [] => None
  | (k', l) :: d' => if decide (k' = k) then Some l else assoc d' k
  end.

(** [sol] holds at position [p] the first of the [n] slides whose variable
    at [p] exceeds 0.5. *)
Definition premiere_retenue (n : nat) (X : Var → Q) (sol : list nat) (p : nat)
    : Prop :=
  ∃ i, sol !! p = Some i ∧ (i < n)%nat ∧ retenue (X (i, p)) = true
       ∧ ∀ i', (i' < i)%nat → retenue (X (i', p)) = false.

(** The photo ids shown by the slide of index [i]. *)
Definition photos_de (slides : list slide) (i : nat) : list nat :=
  default [] (fst <$> slides !! i).

(** The paired slide of two vertical photos. *)
Definition slide_verticale (p q : photo) : slide :=
  ([photo_id p; photo_id q], photo_tags p ∪ photo_tags q).

(** ** Sample data *)

Module Exemple.

(** The input file of the end-to-end example, one line per record. *)
Definition fichier : string :=
  "4" +:+ Py.nl +:+ "H 2 cat dog" +:+ Py.nl +:+ "H 2 dog bird" +:+ Py.nl
  +:+ "V 1 cat" +:+ Py.nl +:+ "V 1 bird" +:+ Py.nl.

Definition fs (path : string) : option string :=
  if decide (path = "a.txt") then Some fichier else None.

Definition argv : list string := ["slideshow.py"; "a.txt"].

(** A file with an unknown orientation symbol, a declared count larger
    than the tokens present and one smaller. *)
Definition fichier_libre : string :=
  "2" +:+ Py.nl +:+ "X 3 a" +:+ Py.nl +:+ "V 1 a b c" +:+ Py.nl.

Definition fs_libre (path : string) : option string :=
  if decide (path = "b.txt") then Some fichier_libre else None.

(** A file that announces two records and holds one. *)
Definition fichier_tronque : string :=
  "2" +:+ Py.nl +:+ "H 1 a" +:+ Py.nl.

Definition fs_tronque (path : string) : option string :=
  if decide (path = "c.txt") then Some fichier_tronque else None.

(** One horizontal photo and three vertical ones. *)
Definition photos : list photo :=
  [ (0%nat, "V", {["cat"]}); (1%nat, "H", {["cat"; "dog"]});
    (2%nat, "V", {["bird"]}); (3%nat, "V", {["sun"; "cat"]}) ].

(** The candidate slides of [fichier]. *)
Definition slides : list slide :=
  [ ([0%nat], {["cat"; "dog"]}); ([1%nat], {["dog"; "bird"]});
    ([2%nat; 3%nat], {["cat"; "bird"]}) ].

(** Slide 0 at position 0, slide 1 at position 1. *)
Definition X (v : Var) : Q :=
  if decide (v = (0%nat, 0%nat) ∨ v = (1%nat, 1%nat)) then 1%Q else 0%Q.

(** A solver that always reports [X]. *)
Definition solveur (m : Model) : option (Var → Q) := Some X.

End Exemple.

(** ** Sequences of slides as assignments *)

(** The assignment that puts the slides of [s] at the positions 0, 1, ...
    in order: the variable of slide [i] at position [pos] is 1 when [s] has
    [i] at [pos], and 0 otherwise. *)
Definition affectation (s : list nat) (v : Var) : Q :=
  if decide (s !! v.2 = Some v.1) then 1%Q else 0%Q.

(** The same with integer values, and the number of variables of a linear
    expression that the assignment sets to 1. *)
Definition indicatrice (s : list nat) (v : Var) : Z :=
  if decide (s !! v.2 = Some v.1) then 1 else 0.

Definition compte (s : list nat) (e : list Var) : nat :=
  length (filter (λ v, s !! v.2 = Some v.1) e).

(** Sum of [g] over a list. *)
Definition somme {A} (g : A → Z) (l : list A) : Z :=
  foldr (λ a acc, g a + acc) 0 l.

(** Integer value of one term of the objective under the assignment of a
    sequence. *)
Definition terme (s : list nat) (t : Z * Var * Var) : Z :=
  t.1.1 * indicatrice s t.1.2 * indicatrice s t.2.

(** Value of one term of the objective under the values [X]. *)
Definition valeur_terme (X : Var → Q) (t : Z * Var * Var) : Q :=
  (inject_Z t.1.1 * X t.1.2 * X t.2)%Q.

(** Value of the quadratic objective under the values [X]. *)
Definition valeur_objectif (X : Var → Q) (obj : list (Z * Var * Var)) : Q :=
  foldr (λ '(score, a, b) acc, inject_Z score * X a * X b + acc)%Q 0%Q obj.

(** The tags of the slide of index [i]. *)
Definition tags_de (slides : list slide) (i : nat) : gset string :=
  default ∅ (snd <$> slides !! i).

(** Sum of the scores of the consecutive slides of a sequence. *)
Fixpoint score_total (slides : list slide) (s : list nat) : Z :=
  match s with
  | i :: (j :: _) as s' =>
      calculer_score (tags_de slides i) (tags_de slides j) + score_total slides s'
  | _ => 0
  end.

(** A sequence of slide indices that uses no slide and no photo twice. *)
Definition sequence_valide (slides : list slide) (s : list nat) : Prop :=
  NoDup s ∧ Forall (λ i, (i < length slides)%nat) s
  ∧ NoDup (s ≫= photos_de slides).

(** The variables collected for [photo_id], slide by slide: the variables
    of a slide at every position, once per occurrence of the id in it. *)
Definition usages (x : nat → nat → Var) (n : nat) (photo_id : nat)
    (l : list (nat * slide)) : list Var :=
  l ≫= λ '(slide_idx, (photo_ids, _)),
    filter (λ k, k = photo_id) photo_ids ≫= λ _,
      (λ pos, x slide_idx pos) <$> seq 0 n.

(** One slide: the loop of lines 66-69. *)
Definition ajouter_slide (vs : list Var) (d : list (nat * list Var))
    (photo_ids : list nat) : list (nat * list Var) :=
  foldl (λ d photo_id, etendre photo_id vs d) d photo_ids.

(** The loops of lines 65-69 from a dictionary [d], over slides listed with
    their indices. *)
Definition remplir (x : nat → nat → Var) (n : nat) (d : list (nat * list Var))
    (l : list (nat * slide)) : list (nat * list Var) :=
  foldl (λ d '(slide_idx, (photo_ids, _)),
    foldl (λ d photo_id,
      etendre photo_id ((λ pos, x slide_idx pos) <$> seq 0 n) d) d photo_ids)
    d l.

(** The elements of a list in order of first appearance, each once. *)
Fixpoint premieres (l : list nat) : list nat :=
  match l with
  | [] => []
  | a :: l' => a :: filter (λ b, b ≠ a) (premieres l')
  end.

(** The text written for a list of slides, after the count line. *)
Definition lignes_ecrites (ids : list (list nat)) : string :=
  foldr (λ photo_ids out, Py.join " " (Py.str <$> photo_ids) +:+ Py.nl +:+ out)
        EmptyString ids.

(** More sample data. *)
Module Echantillon.

(** The sample file followed by text that is never read. *)
Definition fichier_long : string :=
  Exemple.fichier +:+ "H 1 sun" +:+ Py.nl +:+ "not a record" +:+ Py.nl.

Definition fs_long (path : string) : option string :=
  if decide (path = "d.txt") then Some fichier_long else None.

(** Slide 1 first, then slide 0. *)
Definition sequence : list nat := [1%nat; 0%nat].

(** The photos of [Exemple.fichier]. *)
Definition catalogue : list photo :=
  [ (0%nat, "H", {["cat"; "dog"]}); (1%nat, "H", {["dog"; "bird"]});
    (2%nat, "V", {["cat"]}); (3%nat, "V", {["bird"]}) ].

(** A header whose count is followed by the separator 28. *)
Definition fichier_separateur : string :=
  String "1"%char (String "028"%char Py.nl) +:+ "H 0" +:+ Py.nl.

Definition fs_separateur (path : string) : option string :=
  if decide (path = "s.txt") then Some fichier_separateur else None.

(** A file with an unknown orientation symbol among photos that give
    slides, its photos and its slides. *)
Definition fichier_mixte : string :=
  "4" +:+ Py.nl +:+ "H 2 cat dog" +:+ Py.nl +:+ "X 1 sun" +:+ Py.nl
  +:+ "V 1 cat" +:+ Py.nl +:+ "V 1 bird" +:+ Py.nl.

Definition fs_mixte (path : string) : option string :=
  if decide (path = "e.txt") then Some fichier_mixte else None.

Definition catalogue_mixte : list photo :=
  [ (0%nat, "H", {["cat"; "dog"]}); (1%nat, "X", {["sun"]});
    (2%nat, "V", {["cat"]}); (3%nat, "V", {["bird"]}) ].

Definition diapos_mixte : list slide :=
  [ ([0%nat], {["cat"; "dog"]}); ([2%nat; 3%nat], {["cat"; "bird"]}) ].

(** Four slides of one horizontal photo each. *)
Definition diapos : list slide :=
  [ ([0%nat], {["cat"; "dog"]}); ([1%nat], {["dog"; "bird"]});
    ([2%nat], {["bird"; "sun"]}); ([3%nat], {["sun"; "cat"]}) ].

(** Slide 0 at position 0, position 1 left empty, slide 2 at position 2 and
    slide 3 at position 3. *)
Definition X_trou (v : Var) : Q :=
  if decide (v = (0%nat, 0%nat) ∨ v = (2%nat, 2%nat) ∨ v = (3%nat, 3%nat))
  then 1%Q else 0%Q.

End Echantillon.

(** * Properties *)

Section score.

Implicit Types A B : gset string.

Lemma py_min3 (a b c : Z) : Py.min a [b; c] = Z.min a (Z.min b c).
Proof.
  unfold Py.min; simpl.
  destruct (b <? a) eqn:Hba; [destruct (c <? b) eqn:Hc | destruct (c <? a) eqn:Hc]; lia.
Qed.

Lemma calculer_score_min A B :
  calculer_score A B =
    Z.of_nat (Nat.min (size (A ∩ B)) (Nat.min (size (A ∖ B)) (size (B ∖ A)))).
Proof. unfold calculer_score, Py.len_set. rewrite py_min3. lia. Qed.

(** C1: the score of two tag sets is the non-negative integer
    min(|A ∩ B|, |A \ B|, |B \ A|); it is symmetric, and it is 0 exactly
    when one of the three quantities is 0. *)
Theorem calculer_score_spec A B :
  calculer_score A B =
    Z.of_nat (Nat.min (size (A ∩ B)) (Nat.min (size (A ∖ B)) (size (B ∖ A))))
  ∧ 0 ≤ calculer_score A B
  ∧ calculer_score A B = calculer_score B A
  ∧ (calculer_score A B = 0 ↔
       size (A ∩ B) = 0%nat ∨ size (A ∖ B) = 0%nat ∨ size (B ∖ A) = 0%nat).
Proof.
  rewrite !calculer_score_min.
  assert (B ∩ A = A ∩ B) as Hcomm by set_solver.
  rewrite Hcomm.
  repeat split; lia.
Qed.

End score.

Example score_exemple : calculer_score {["a"; "b"; "c"]} {["b"; "c"; "d"]} = 1.
Proof. vm_compute. reflexivity. Qed.

(** ** Loops *)

Section loops.

Context {I A : Type}.

(** A loop whose body appends [g x] to the list it threads. *)
Lemma for_append (g : I → list A) (body : I → list A → result (list A)) xs :
  (∀ x s, x ∈ xs → body x s = Ok (s ++ g x)) →
  ∀ s, for_ xs body s = Ok (s ++ xs ≫= g).
Proof.
  induction xs as [|x xs IH]; intros Hbody s; simpl.
  - by rewrite app_nil_r.
  - rewrite Hbody by left. simpl.
    rewrite IH by (intros; apply Hbody; by right).
    by rewrite app_assoc.
Qed.

End loops.

(** ** Slide generator *)

Section generator.

Implicit Types photos hs vs : list photo.

Lemma elem_of_paires a m i j :
  (i, j) ∈ paires_depuis a m ↔ (a ≤ i ∧ i < j ∧ j < a + m)%nat.
Proof.
  unfold paires_depuis. rewrite list_elem_of_bind. split.
  - intros (i' & Hj & Hi). apply elem_of_seq in Hi.
    apply list_elem_of_fmap in Hj as (j' & [= -> ->] & Hj).
    apply elem_of_seq in Hj. lia.
  - intros (? & ? & ?). exists i. split.
    + apply list_elem_of_fmap. exists j. split; [done|]. apply elem_of_seq. lia.
    + apply elem_of_seq. lia.
Qed.

Lemma binom_1 n : binom n 1 = n.
Proof. induction n as [|n IH]; simpl; [done|]. destruct n; simpl in *; lia. Qed.

Lemma length_paires a m : length (paires_depuis a m) = binom m 2.
Proof.
  revert a. induction m as [|m IH]; intros a; [done|].
  unfold paires_depuis in *. rewrite <- cons_seq. simpl.
  rewrite length_app, length_fmap, length_seq.
  replace (a + S m)%nat with (S a + m)%nat by lia.
  rewrite IH. change (binom (S m) 2) with (binom m 1 + binom m 2)%nat.
  rewrite binom_1. lia.
Qed.

Lemma paires_triees a m : StronglySorted lex_lt (paires_depuis a m).
Proof.
  revert a. induction m as [|m IH]; intros a; [constructor|].
  unfold paires_depuis in *. rewrite <- cons_seq. simpl.
  replace (a + S m)%nat with (S a + m)%nat by lia.
  apply StronglySorted_app_2; [| |apply IH].
  - intros [i j] [i' j'] Hin Hin'.
    apply list_elem_of_fmap in Hin as (? & [= -> ->] & _).
    apply (elem_of_paires (S a) m) in Hin'. left; simpl; lia.
  - generalize (a + 1)%nat (S a + m - (a + 1))%nat. intros b k.
    revert b. induction k as [|k IHk]; intros b; simpl; constructor; [apply IHk|].
    apply Forall_forall. intros [i j] Hin.
    apply list_elem_of_fmap in Hin as (? & [= -> ->] & Hj).
    apply elem_of_seq in Hj. right; simpl; lia.
Qed.

(** The nested loops of lines 28-34 append the paired slides of the index
    pairs listed by [paires_depuis]. *)
Lemma boucle_verticales (verticales : list (nat * gset string)) slides :
  for_ (Py.range (Py.len verticales)) (λ i slides,
    for_ (Py.range2 (i + 1) (length verticales)) (λ j slides,
      '(id1, tags1) ← Py.index verticales i;
      '(id2, tags2) ← Py.index verticales j;
      Ok (slides ++ [([id1; id2], tags1 ∪ tags2)])) slides) slides
  = Ok (slides ++
          omap (λ '(i, j),
                  p ← verticales !! i; q ← verticales !! j;
                  Some ([p.1; q.1], p.2 ∪ q.2))
               (paires_depuis 0 (length verticales))).
Proof.
  unfold Py.range, Py.len, Py.range2. rewrite Nat2Z.id.
  set (V := length verticales).
  rewrite (for_append (λ i, omap (λ '(i, j),
                  p ← verticales !! i; q ← verticales !! j;
                  Some ([p.1; q.1], p.2 ∪ q.2))
               ((λ j, (i, j)) <$> seq (i + 1) (V - (i + 1))))).
  - f_equal. f_equal. unfold paires_depuis. simpl.
    generalize (seq 0 V). intros l. induction l as [|i l IH]; [done|].
    by rewrite !bind_cons, omap_app, IH.
  - intros i s Hi. apply elem_of_seq in Hi.
    rewrite (for_append (λ j, omap (λ '(i, j),
                  p ← verticales !! i; q ← verticales !! j;
                  Some ([p.1; q.1], p.2 ∪ q.2)) [(i, j)])).
    + f_equal. f_equal. generalize (seq (i + 1) (V - (i + 1))). intros l.
      induction l as [|j l IH]; [done|].
      rewrite bind_cons, fmap_cons, IH. simpl.
      by destruct (verticales !! i) as [p|], (verticales !! j) as [q|].
    + intros j s' Hj. apply elem_of_seq in Hj. unfold Py.index.
      destruct (lookup_lt_is_Some_2 verticales i) as [[id1 t1] Hp]; [fold V; lia|].
      destruct (lookup_lt_is_Some_2 verticales j) as [[id2 t2] Hq]; [fold V; lia|].
      simpl. rewrite Hp, Hq. done.
Qed.

Lemma Forall2_omap {X Y} (f : X → option Y) (R : Y → X → Prop) l :
  (∀ x, x ∈ l → ∃ y, f x = Some y ∧ R y x) → Forall2 R (omap f l) l.
Proof.
  induction l as [|x l IH]; intros H; simpl; [constructor|].
  destruct (H x) as (y & -> & HR); [left|].
  constructor; [done|]. apply IH. intros; apply H; by right.
Qed.

Lemma ids_verticales_distincts photos i j p q :
  NoDup (photo_id <$> photos) →
  filter (λ p, photo_orientation p = "V") photos !! i = Some p →
  filter (λ p, photo_orientation p = "V") photos !! j = Some q →
  i ≠ j → photo_id p ≠ photo_id q.
Proof.
  intros Hnd Hp Hq Hij Heq. apply Hij.
  assert (NoDup (photo_id <$> filter (λ p, photo_orientation p = "V") photos)) as Hnd'.
  { apply (sublist_NoDup _ _ Hnd), (fmap_sublist photo_id), sublist_filter. }
  apply (NoDup_lookup _ i j (photo_id p) Hnd'); rewrite list_lookup_fmap.
  - by rewrite Hp.
  - by rewrite Hq, Heq.
Qed.

(** The generator in closed form; it raises no error. *)
Lemma creer_slides_eq photos :
  let hs := filter (λ p, photo_orientation p = "H") photos in
  let vs := filter (λ p, photo_orientation p = "V") photos in
  let verticales := (λ p, (photo_id p, photo_tags p)) <$> vs in
  creer_slides photos =
    Ok ((slide_horizontale <$> hs)
        ++ omap (λ '(i, j),
                   p ← verticales !! i; q ← verticales !! j;
                   Some ([p.1; q.1], p.2 ∪ q.2))
                (paires_depuis 0 (length verticales))).
Proof. intros hs vs verticales. unfold creer_slides. apply boucle_verticales. Qed.

(** Every photo id of a slide is the id of a horizontal or vertical photo. *)
Lemma ids_des_slides photos slides s photo_id' :
  creer_slides photos = Ok slides → s ∈ slides → photo_id' ∈ s.1 →
  ∃ p, p ∈ photos ∧ photo_id p = photo_id'
       ∧ (photo_orientation p = "H" ∨ photo_orientation p = "V").
Proof.
  rewrite creer_slides_eq. intros [= <-] Hs Hid.
  apply elem_of_app in Hs as [Hs|Hs].
  - apply list_elem_of_fmap in Hs as (p & -> & Hp).
    apply list_elem_of_filter in Hp as [Ho Hp].
    apply list_elem_of_singleton in Hid. eauto.
  - apply list_elem_of_omap in Hs as ([i j] & _ & Hs).
    rewrite !list_lookup_fmap in Hs.
    destruct (filter _ photos !! i) as [p|] eqn:Ep; [|done].
    destruct (filter _ photos !! j) as [q|] eqn:Eq; [|done].
    injection Hs as <-. simpl in Hid.
    apply list_elem_of_lookup_2 in Ep, Eq.
    apply list_elem_of_filter in Ep as [? ?], Eq as [? ?].
    apply elem_of_cons in Hid as [->|Hid%list_elem_of_singleton]; subst; eauto.
Qed.

Lemma filter_delete (P : photo → Prop) `{!∀ p, Decision (P p)} photos k p :
  photos !! k = Some p → ¬ P p → filter P (delete k photos) = filter P photos.
Proof.
  revert k. induction photos as [|p' photos IH]; intros [|k] Hk Hp; try done.
  - injection Hk as ->. simpl. by rewrite filter_cons_False.
  - simpl in *. rewrite !filter_cons, (IH k) by done. done.
Qed.

(** A photo that is neither horizontal nor vertical can be removed
    without changing the slides. *)
Lemma creer_slides_delete photos k p :
  photos !! k = Some p →
  photo_orientation p ≠ "H" → photo_orientation p ≠ "V" →
  creer_slides (delete k photos) = creer_slides photos.
Proof.
  intros Hk HH HV. rewrite !creer_slides_eq. cbv zeta.
  by rewrite !(filter_delete _ photos k p).
Qed.

(** C2: with H horizontal and V vertical photos the generator returns
    H + C(V,2) slides: the singleton slides of the horizontal photos in
    input order, then one paired slide for each index pair i < j of the
    vertical photos, the pairs listed in lexicographic order; a paired
    slide carries the ids of its two photos, which differ when the ids of
    the photo list are unique, and the union of the two tag sets. *)
Theorem creer_slides_spec photos :
  let hs := filter (λ p, photo_orientation p = "H") photos in
  let vs := filter (λ p, photo_orientation p = "V") photos in
  ∃ (paires : list (nat * nat)) (doubles : list slide),
    creer_slides photos
    = Ok (((λ p, ([photo_id p], photo_tags p)) <$> hs) ++ doubles)
    ∧ length (((λ p, ([photo_id p], photo_tags p)) <$> hs) ++ doubles)
      = (length hs + binom (length vs) 2)%nat
    ∧ StronglySorted lex_lt paires
    ∧ (∀ i j, (i, j) ∈ paires ↔ (i < j < length vs)%nat)
    ∧ Forall2 (λ s '(i, j), ∃ p q,
                 vs !! i = Some p ∧ vs !! j = Some q
                 ∧ s = ([photo_id p; photo_id q], photo_tags p ∪ photo_tags q)
                 ∧ (NoDup (photo_id <$> photos) → photo_id p ≠ photo_id q))
              doubles paires.
Proof.
  intros hs vs.
  set (verticales := (λ p, (photo_id p, photo_tags p)) <$> vs).
  set (f := λ '(i, j), p ← verticales !! i; q ← verticales !! j;
                       Some ([p.1; q.1], p.2 ∪ q.2)).
  assert (length verticales = length vs) as Hlen by apply length_fmap.
  assert (Forall2 (λ s '(i, j), ∃ p q,
                 vs !! i = Some p ∧ vs !! j = Some q
                 ∧ s = ([photo_id p; photo_id q], photo_tags p ∪ photo_tags q)
                 ∧ (NoDup (photo_id <$> photos) → photo_id p ≠ photo_id q))
            (omap f (paires_depuis 0 (length vs))) (paires_depuis 0 (length vs)))
    as Hdoubles.
  { apply Forall2_omap. intros [i j] Hin. apply elem_of_paires in Hin.
    destruct (lookup_lt_is_Some_2 vs i) as [p Hp]; [lia|].
    destruct (lookup_lt_is_Some_2 vs j) as [q Hq]; [lia|].
    exists (slide_verticale p q). split.
    - unfold f, verticales. rewrite !list_lookup_fmap, Hp, Hq. done.
    - exists p, q. repeat split; try done.
      intros Hnd. eapply ids_verticales_distincts; eauto. lia. }
  exists (paires_depuis 0 (length vs)), (omap f (paires_depuis 0 (length vs))).
  split; [|split; [|split; [|split]]].
  - unfold creer_slides. fold hs vs verticales.
    rewrite boucle_verticales. by rewrite Hlen.
  - rewrite length_app, length_fmap. f_equal.
    etrans; [exact (Forall2_length _ _ _ Hdoubles)|apply length_paires].
  - apply paires_triees.
  - intros i j. rewrite elem_of_paires. lia.
  - exact Hdoubles.
Qed.

End generator.

(** Three vertical photos give the pairs (0,1), (0,2), (1,2). *)
Example trois_verticales :
  creer_slides [ (0%nat, "V", {["a"]}); (1%nat, "V", {["b"]}); (2%nat, "V", {["c"]}) ]
  = Ok [ ([0%nat; 1%nat], {["a"; "b"]}); ([0%nat; 2%nat], {["a"; "c"]});
         ([1%nat; 2%nat], {["b"; "c"]}) ].
Proof. vm_compute. reflexivity. Qed.

(** The sample file gives two horizontal slides and one paired slide. *)
Example slides_exemple :
  lire_input Exemple.fs "a.txt" ≫= creer_slides = Ok Exemple.slides.
Proof. vm_compute. reflexivity. Qed.

(** ** The model built by [construire_modele] *)

Section modele.

Implicit Types (slides : list slide) (X : Var → Q) (d : list (nat * list Var)).

Lemma ligne_variables i lp st :
  let st' := foldl (ajouter_variable i) st lp in
  st'.1 = st.1 ++ (decl i <$> lp)
  ∧ ∀ k, st'.2 !! k = if decide (k.1 = i ∧ k.2 ∈ lp) then Some k else st.2 !! k.
Proof.
  revert st. induction lp as [|pos lp IH]; intros st; simpl.
  - split; [by rewrite app_nil_r|]. intros k.
    case_decide as H; [|done]. destruct H as [_ H]. by apply elem_of_nil in H.
  - destruct (IH (ajouter_variable i st pos)) as [IH1 IH2]. split.
    + rewrite IH1. simpl. by rewrite <- app_assoc.
    + intros [ki kp]. rewrite IH2. simpl.
      destruct (decide ((ki, kp) = (i, pos))) as [[= -> ->]|Hne];
        [rewrite lookup_insert_eq|rewrite lookup_insert_ne by done];
        repeat case_decide; try done; exfalso;
        rewrite ?elem_of_cons in *; naive_solver.
Qed.

Lemma grille_variables li lp st :
  let st' := foldl (λ st i, foldl (ajouter_variable i) st lp) st li in
  st'.1 = st.1 ++ (li ≫= λ i, decl i <$> lp)
  ∧ ∀ k, st'.2 !! k = if decide (k.1 ∈ li ∧ k.2 ∈ lp) then Some k else st.2 !! k.
Proof.
  revert st. induction li as [|i li IH]; intros st; cbn [foldl].
  - split; [by rewrite app_nil_r|]. intros k.
    case_decide as H; [|done]. destruct H as [H _]. by apply elem_of_nil in H.
  - destruct (IH (foldl (ajouter_variable i) st lp)) as [IH1 IH2].
    destruct (ligne_variables i lp st) as [L1 L2]. split.
    + rewrite IH1, L1, bind_cons. by rewrite <- app_assoc.
    + intros k. rewrite IH2, L2.
      repeat case_decide; try done; exfalso;
        rewrite ?elem_of_cons in *; naive_solver.
Qed.

Lemma creer_variables_decls n :
  (creer_variables n).1 = seq 0 n ≫= λ i, decl i <$> seq 0 n.
Proof. apply (grille_variables (seq 0 n) (seq 0 n) ([], ∅)). Qed.

Lemma creer_variables_lookup n i pos :
  (creer_variables n).2 !! (i, pos) =
    if decide (i < n ∧ pos < n)%nat then Some (i, pos) else None.
Proof.
  destruct (grille_variables (seq 0 n) (seq 0 n) ([], ∅)) as [_ H].
  unfold creer_variables. rewrite (H (i, pos)). cbn [fst snd].
  rewrite lookup_empty.
  repeat case_decide; try done; exfalso; rewrite !elem_of_seq in *; lia.
Qed.

Lemma creer_variables_total n i pos :
  (i < n)%nat → (pos < n)%nat → (creer_variables n).2 !!! (i, pos) = (i, pos).
Proof.
  intros. rewrite lookup_total_alt, creer_variables_lookup.
  case_decide; [done|lia].
Qed.

(** Adding constraints one by one only grows the list of constraints. *)
Lemma foldl_addConstr {T} (c : T → Constr) (f : Model → T → Model)
    (l : list T) (m : Model) :
  (∀ m a, f m a = addConstr (c a) m) →
  foldl f m l =
    {| m_vars := m_vars m; m_constrs := m_constrs m ++ (c <$> l);
       m_objective := m_objective m; TimeLimit := TimeLimit m |}.
Proof.
  intros Hf. revert m. induction l as [|a l IH]; intros m; simpl.
  - rewrite app_nil_r. by destruct m.
  - rewrite IH, Hf. simpl. by rewrite <- app_assoc.
Qed.

(** The model in closed form: the four families of constraints, in the
    order in which they are added. *)
Lemma construire_modele_eq slides :
  let n := length slides in
  let slide_vars := (creer_variables n).2 in
  let x (i pos : nat) : Var := slide_vars !!! (i, pos) in
  construire_modele slides =
    ({| m_vars := (creer_variables n).1;
        m_constrs :=
          ((λ pos, au_plus_un ((λ i, x i pos) <$> seq 0 n) None) <$> seq 0 n)
          ++ ((λ i, au_plus_un ((λ pos, x i pos) <$> seq 0 n) None) <$> seq 0 n)
          ++ ((λ '(photo_id, utilisations),
                 au_plus_un utilisations (Some (nom_contrainte photo_id)))
                <$> utilisations_photo x slides)
          ++ [au_moins_un ((λ i, x i 0%nat) <$> seq 0 n)];
        m_objective := objectif x slides;
        TimeLimit := None |}, slide_vars).
Proof.
  intros n slide_vars x. unfold construire_modele. fold n.
  subst x slide_vars. destruct (creer_variables n) as [decls slide_vars].
  cbn [fst snd].
  rewrite (foldl_addConstr (λ '(photo_id, utilisations),
             au_plus_un utilisations (Some (nom_contrainte photo_id))))
    by (by intros ? []).
  rewrite (foldl_addConstr
             (λ i, au_plus_un ((λ pos, slide_vars !!! (i, pos)) <$> seq 0 n) None))
    by done.
  rewrite (foldl_addConstr
             (λ pos, au_plus_un ((λ i, slide_vars !!! (i, pos)) <$> seq 0 n) None))
    by done.
  unfold setObjective, addConstr. cbn.
  by rewrite <- !app_assoc.
Qed.

(** *** The dictionary of uses *)

Lemma assoc_etendre k vs d k' :
  assoc (etendre k vs d) k' =
    if decide (k = k') then Some (default [] (assoc d k) ++ vs) else assoc d k'.
Proof.
  induction d as [|[k0 l] d IH]; simpl.
  - repeat case_decide; done.
  - destruct (decide (k0 = k)) as [->|Hne]; simpl.
    + repeat case_decide; done.
    + rewrite IH. repeat case_decide; try done. congruence.
Qed.

Lemma assoc_elem_of d k us : assoc d k = Some us → (k, us) ∈ d.
Proof.
  induction d as [|[k0 l] d IH]; simpl; [done|].
  case_decide as H; [intros [= ->]; subst; left|right; auto].
Qed.

Lemma elem_of_etendre k vs d k' us :
  (k', us) ∈ etendre k vs d →
  (k', us) ∈ d ∨ (k' = k ∧ ∃ l, us = l ++ vs ∧ (l = [] ∨ (k, l) ∈ d)).
Proof.
  induction d as [|[k0 l] d IH]; simpl.
  - intros [= -> ->]%list_elem_of_singleton. right. split; [done|]. exists []; auto.
  - case_decide as H; [subst k0|].
    + intros [[= -> ->]|Hin]%elem_of_cons.
      * right. split; [done|]. exists l. split; [done|]. right; left.
      * left; by right.
    + intros [[= -> ->]|Hin]%elem_of_cons; [left; left|].
      destruct (IH Hin) as [?|(-> & l' & -> & Hl')]; [left; by right|].
      right. split; [done|]. exists l'. split; [done|].
      destruct Hl'; [by left|right; by right].
Qed.

Section uses.

Variable x : nat → nat → Var.
Variable slides : list slide.

Let n := length slides.
Let ligne (slide_idx : nat) : list Var := (λ pos, x slide_idx pos) <$> seq 0 n.

(** The entry of a photo id holds the variables of every slide that
    shows it. *)
Lemma utilisations_couvre i photo_ids tags photo_id :
  slides !! i = Some (photo_ids, tags) → photo_id ∈ photo_ids →
  ∃ us, assoc (utilisations_photo x slides) photo_id = Some us
        ∧ ∀ pos, (pos < n)%nat → x i pos ∈ us.
Proof.
  intros Hi Hid. unfold utilisations_photo. fold n.
  set (Q := λ d : list (nat * list Var),
              ∃ us, assoc d photo_id = Some us ∧ ∀ pos, (pos < n)%nat → x i pos ∈ us).
  assert (∀ k j d, Q d → Q (etendre k (ligne j) d)) as Hstable.
  { intros k j d (us & Hus & Hcov). unfold Q. rewrite assoc_etendre.
    case_decide; subst; [|eauto].
    rewrite Hus. simpl. eexists; split; [done|].
    intros pos Hpos. apply elem_of_app; left; auto. }
  assert (∀ ids j d, Q d →
            Q (foldl (λ d photo_id, etendre photo_id (ligne j) d) d ids)) as Hstable'.
  { induction ids as [|k ids IH]; intros j d HQ; simpl; [done|].
    apply IH, Hstable, HQ. }
  assert (∀ ids d, photo_id ∈ ids →
            Q (foldl (λ d photo_id, etendre photo_id (ligne i) d) d ids)) as Hreach.
  { induction ids as [|k ids IH]; intros d Hin; simpl.
    - by apply elem_of_nil in Hin.
    - apply elem_of_cons in Hin as [<-|Hin]; [|by apply IH].
      apply Hstable'. unfold Q. rewrite assoc_etendre.
      case_decide; [|done]. eexists; split; [done|].
      intros pos Hpos. apply elem_of_app; right.
      apply list_elem_of_fmap. exists pos. split; [done|].
      apply elem_of_seq. lia. }
  assert ((i, (photo_ids, tags)) ∈ imap (λ slide_idx s, (slide_idx, s)) slides) as Hin.
  { apply list_elem_of_lookup. exists i. apply list_lookup_imap_Some. eauto. }
  revert Hin. generalize (imap (λ slide_idx s, (slide_idx, s)) slides).
  generalize (@nil (nat * list Var)).
  intros d l. revert d. induction l as [|[j [ids t]] l IH]; intros d Hin; simpl.
  - by apply elem_of_nil in Hin.
  - apply elem_of_cons in Hin as [[= <- <- <-]|Hin]; [|by apply IH].
    fold (ligne i).
    generalize (foldl (λ d photo_id, etendre photo_id (ligne i) d) d photo_ids)
               (Hreach photo_ids d Hid).
    clear -Hstable'. revert l. 
    induction l as [|[j [ids t]] l IH]; intros d HQ; simpl; [done|].
    apply IH. fold (ligne j). by apply Hstable'.
Qed.

(** Every variable stored in the dictionary is a variable of some slide
    of the list at some position. *)
Lemma utilisations_bornees photo_id us v :
  (photo_id, us) ∈ utilisations_photo x slides → v ∈ us →
  ∃ i pos, (i < n)%nat ∧ (pos < n)%nat ∧ v = x i pos.
Proof.
  unfold utilisations_photo. fold n.
  set (P := λ d : list (nat * list Var),
              ∀ k us v, (k, us) ∈ d → v ∈ us →
                ∃ i pos, (i < n)%nat ∧ (pos < n)%nat ∧ v = x i pos).
  assert (∀ k j d, (j < n)%nat → P d → P (etendre k (ligne j) d)) as Hstable.
  { intros k j d Hj HP k' us' v' Hin Hv.
    apply elem_of_etendre in Hin as [Hin|(-> & l & -> & Hl)]; [by eapply HP|].
    apply elem_of_app in Hv as [Hv|Hv].
    - destruct Hl as [->|Hl]; [by apply elem_of_nil in Hv|by eapply HP].
    - apply list_elem_of_fmap in Hv as (pos & -> & Hpos).
      apply elem_of_seq in Hpos. exists j, pos. repeat split; [done|lia]. }
  assert (∀ ids j d, (j < n)%nat → P d →
            P (foldl (λ d photo_id, etendre photo_id (ligne j) d) d ids)) as Hstable'.
  { induction ids as [|k ids IH]; intros j d Hj HP; simpl; [done|].
    by apply IH, Hstable. }
  assert (∀ (l : list (nat * slide)) d, (∀ j s, (j, s) ∈ l → (j < n)%nat) → P d →
            P (foldl (λ d '(slide_idx, (photo_ids, _)),
                 foldl (λ d photo_id,
                   etendre photo_id ((λ pos, x slide_idx pos) <$> seq 0 n) d)
                   d photo_ids) d l)) as Hfold.
  { induction l as [|[j [ids t]] l IH]; intros d Hl HP; simpl; [done|].
    apply IH; [intros; eapply Hl; by right|].
    fold (ligne j). apply Hstable'; [|done]. eapply Hl; left. }
  intros Hin Hv. eapply (Hfold _ []); [| |exact Hin|exact Hv].
  - intros j s [j' Hj]%list_elem_of_lookup.
    apply list_lookup_imap_Some in Hj as (s' & Hj & [= -> ->]).
    by apply lookup_lt_Some in Hj.
  - intros ??? []%elem_of_nil.
Qed.

End uses.

End modele.

(** ** Values of linear expressions *)

Section valeurs.

Variable X : Var → Q.

Lemma valeur_pos e : (∀ v, v ∈ e → (0 <= X v)%Q) → (0 <= valeur X e)%Q.
Proof.
  induction e as [|v e IH]; intros Hpos; simpl; [lra|].
  assert (0 <= X v)%Q by (apply Hpos; left).
  assert (0 <= valeur X e)%Q by (apply IH; intros; apply Hpos; by right).
  lra.
Qed.

Lemma valeur_minore e a :
  (∀ v, v ∈ e → (0 <= X v)%Q) → a ∈ e → (X a <= valeur X e)%Q.
Proof.
  induction e as [|v e IH]; intros Hpos Ha; simpl.
  - by apply elem_of_nil in Ha.
  - assert (0 <= X v)%Q by (apply Hpos; left).
    assert (0 <= valeur X e)%Q by (apply valeur_pos; intros; apply Hpos; by right).
    apply elem_of_cons in Ha as [->|Ha]; [lra|].
    assert (X a <= valeur X e)%Q by (apply IH; [intros; apply Hpos; by right|done]).
    lra.
Qed.

(** Two different variables of an expression weigh at most its value. *)
Lemma valeur_minore2 e a b :
  (∀ v, v ∈ e → (0 <= X v)%Q) → a ∈ e → b ∈ e → a ≠ b →
  (X a + X b <= valeur X e)%Q.
Proof.
  induction e as [|v e IH]; intros Hpos Ha Hb Hab; simpl.
  - by apply elem_of_nil in Ha.
  - assert (0 <= X v)%Q by (apply Hpos; left).
    assert (∀ v, v ∈ e → (0 <= X v)%Q) as Hpos' by (intros; apply Hpos; by right).
    apply elem_of_cons in Ha as [->|Ha]; apply elem_of_cons in Hb as [->|Hb].
    + done.
    + pose proof (valeur_minore e b Hpos' Hb). lra.
    + pose proof (valeur_minore e a Hpos' Ha). lra.
    + pose proof (IH Hpos' Ha Hb Hab). lra.
Qed.

Lemma retenue_un x : (x == 1)%Q → retenue x = true.
Proof.
  intros Hx. unfold retenue. destruct (Qle_bool x (1 # 2)) eqn:E; [|done].
  apply Qle_bool_iff in E. lra.
Qed.

Lemma retenue_binaire x : (x == 0 ∨ x == 1)%Q → retenue x = true → (x == 1)%Q.
Proof.
  intros [Hx|Hx] Hr; [|done]. unfold retenue in Hr.
  assert (Qle_bool x (1 # 2) = true) as E by (apply Qle_bool_iff; lra).
  by rewrite E in Hr.
Qed.

End valeurs.

(** ** Solution extraction *)

Section extraction.

Variable slides : list slide.
Variable X : Var → Q.

Let n := length slides.
Let slide_vars := (construire_modele slides).2.

Lemma slide_vars_lookup i pos :
  (i < n)%nat → (pos < n)%nat → slide_vars !! (i, pos) = Some (i, pos).
Proof.
  intros Hi Hpos. unfold slide_vars. rewrite construire_modele_eq. cbn [snd].
  rewrite creer_variables_lookup. fold n. case_decide; [done|lia].
Qed.

(** The inner loop finds the first slide retained at [pos], if any. *)
Lemma chercher_spec pos m a :
  (pos < n)%nat → (a + m ≤ n)%nat →
  ∃ r, chercher slide_vars (λ v, Ok (X v)) pos (seq a m) = Ok r
       ∧ match r with
         | Some i => (a ≤ i < a + m)%nat ∧ retenue (X (i, pos)) = true
                     ∧ ∀ i', (a ≤ i' < i)%nat → retenue (X (i', pos)) = false
         | None => ∀ i, (a ≤ i < a + m)%nat → retenue (X (i, pos)) = false
         end.
Proof.
  intros Hpos. revert a. induction m as [|m IH]; intros a Ham; simpl.
  - exists None. split; [done|]. intros; lia.
  - rewrite slide_vars_lookup by lia. simpl.
    destruct (retenue (X (a, pos))) eqn:E.
    + exists (Some a). split; [done|]. repeat split; [lia..|done|intros; lia].
    + destruct (IH (S a)) as (r & -> & Hr); [lia|].
      exists r. split; [done|]. destruct r as [i|].
      * destruct Hr as (? & ? & Hr). repeat split; [lia..|done|].
        intros i' Hi'. destruct (decide (i' = a)) as [->|]; [done|apply Hr; lia].
      * intros i Hi. destruct (decide (i = a)) as [->|]; [done|apply Hr; lia].
Qed.

Lemma parcourir_spec m a acc :
  length acc = a → (a + m ≤ n)%nat →
  (∀ p, (p < a)%nat → premiere_retenue n X acc p) →
  ∃ sol, parcourir slide_vars (λ v, Ok (X v)) n (seq a m) acc = Ok sol
         ∧ (length sol ≤ a + m)%nat
         ∧ (∀ p, (p < length sol)%nat → premiere_retenue n X sol p)
         ∧ ((length sol < a + m)%nat →
            ∀ i, (i < n)%nat → retenue (X (i, length sol)) = false).
Proof.
  revert a acc. induction m as [|m IH]; intros a acc Hlen Ham Hacc; simpl.
  - exists acc. repeat split; [lia|intros; apply Hacc; lia|intros; lia].
  - destruct (chercher_spec a n 0) as (r & -> & Hr); [lia..|]. simpl.
    destruct r as [i|].
    + destruct Hr as (Hi & Hret & Hfirst).
      rewrite decide_False by (rewrite length_app; simpl; lia).
      destruct (IH (S a) (acc ++ [i])) as (sol & -> & H1 & H2 & H3).
      * rewrite length_app; simpl; lia.
      * lia.
      * intros p Hp. destruct (decide (p = a)) as [->|Hne].
        -- exists i. rewrite lookup_app_r, Hlen, Nat.sub_diag by lia.
           repeat split; [lia|done|intros; apply Hfirst; lia].
        -- destruct (Hacc p) as (i0 & Hl & ?); [lia|].
           exists i0. by rewrite lookup_app_l by lia.
      * exists sol. repeat split; [lia|done|intros; apply H3; lia].
    + rewrite decide_True by lia.
      exists acc. repeat split; [lia|intros; apply Hacc; lia|].
      intros _ i Hi. rewrite Hlen. apply Hr. lia.
Qed.

End extraction.

Lemma get_solution_ok (slides : list slide) (X : Var → Q) :
  let n := length slides in
  ∃ sol,
    get_solution (construire_modele slides).2 (λ v, Ok (X v)) slides = Ok sol
    ∧ (length sol ≤ n)%nat
    ∧ (∀ p, (p < length sol)%nat → premiere_retenue n X sol p)
    ∧ ((length sol < n)%nat →
       ∀ i, (i < n)%nat → retenue (X (i, length sol)) = false).
Proof.
  intros n. unfold get_solution. fold n.
  destruct (parcourir_spec slides X n 0 []) as (sol & Hsol & H1 & H2 & H3);
    [done|lia|intros; lia|].
  exists sol. auto.
Qed.

(** The extractor's test is the comparison with 1/2. *)
Lemma retenue_vrai (x : Q) : retenue x = true ↔ (1 # 2 < x)%Q.
Proof.
  unfold retenue. rewrite negb_true_iff, <- not_true_iff_false, Qle_bool_iff.
  split; [apply Qnot_le_lt|apply Qlt_not_le].
Qed.

Lemma retenue_faux (x : Q) : retenue x = false ↔ (x <= 1 # 2)%Q.
Proof. unfold retenue. by rewrite negb_false_iff, Qle_bool_iff. Qed.

(** C6: for every assignment of the variables, the extractor raises no
    error and returns a prefix without gaps: position p of the result holds
    the first slide whose variable at position p exceeds 0.5, for every
    p below the length k of the result, and if k is less than the number of
    slides then no variable at position k exceeds 0.5. *)
Theorem get_solution_prefixe (slides : list slide) (X : Var → Q) :
  let n := length slides in
  ∃ sol,
    get_solution (construire_modele slides).2 (λ v, Ok (X v)) slides = Ok sol
    ∧ (length sol ≤ n)%nat
    ∧ (∀ p, (p < length sol)%nat →
         ∃ i, sol !! p = Some i ∧ (i < n)%nat ∧ (1 # 2 < X (i, p))%Q
              ∧ ∀ i', (i' < i)%nat → (X (i', p) <= 1 # 2)%Q)
    ∧ ((length sol < n)%nat →
       ∀ i, (i < n)%nat → (X (i, length sol) <= 1 # 2)%Q).
Proof.
  intros n. unfold get_solution. fold n.
  destruct (parcourir_spec slides X n 0 []) as (sol & Hsol & Hlen & Hpref & Hstop).
  - done.
  - lia.
  - intros p Hp. lia.
  - exists sol. split; [exact Hsol|]. split; [exact Hlen|]. split.
    + intros p Hp. destruct (Hpref p Hp) as (i & Hi & Hin & Hret & Havant).
      exists i. split; [exact Hi|]. split; [exact Hin|].
      split; [by apply retenue_vrai|].
      intros i' Hi'. by apply retenue_faux, Havant.
    + intros Hk i Hi. by apply retenue_faux, Hstop.
Qed.

(** ** Exclusion constraints *)

Section contraintes.

Variable slides : list slide.
Variable X : Var → Q.

Let n := length slides.
Let x (i pos : nat) : Var := (creer_variables n).2 !!! (i, pos).

Hypothesis Hreal : realisable_au_plus (construire_modele slides).1 X.

Lemma x_eq i pos : (i < n)%nat → (pos < n)%nat → x i pos = (i, pos).
Proof. apply creer_variables_total. Qed.

Lemma binaire i pos :
  (i < n)%nat → (pos < n)%nat → (X (i, pos) == 0 ∨ X (i, pos) == 1)%Q.
Proof.
  intros Hi Hpos. destruct Hreal as [Hbin _].
  rewrite construire_modele_eq in Hbin. cbn [fst m_vars] in Hbin.
  rewrite creer_variables_decls in Hbin. fold n in Hbin.
  rewrite Forall_forall in Hbin. apply (Hbin (decl i pos)).
  apply list_elem_of_bind. exists i. split; [|apply elem_of_seq; lia].
  apply list_elem_of_fmap. exists pos. split; [done|apply elem_of_seq; lia].
Qed.

Lemma contrainte_respectee c :
  c ∈ m_constrs (construire_modele slides).1 → c_sense c = LessEqual →
  (valeur X (c_lhs c) <= inject_Z (c_rhs c))%Q.
Proof.
  intros Hc Hs. destruct Hreal as [_ Hle].
  rewrite Forall_forall in Hle. specialize (Hle c Hc Hs).
  unfold respecte in Hle. by rewrite Hs in Hle.
Qed.

(** Two variables of one at-most-one constraint are not both 1. *)
Lemma exclusif e name a b :
  au_plus_un e name ∈ m_constrs (construire_modele slides).1 →
  (∀ v, v ∈ e → ∃ i pos, (i < n)%nat ∧ (pos < n)%nat ∧ v = (i, pos)) →
  a ∈ e → b ∈ e → (X a == 1)%Q → (X b == 1)%Q → a = b.
Proof.
  intros Hc Hborne Ha Hb HXa HXb.
  destruct (decide (a = b)) as [|Hab]; [done|exfalso].
  apply contrainte_respectee in Hc; [|done]. simpl in Hc.
  assert (X a + X b <= valeur X e)%Q as Hmin.
  { apply valeur_minore2; [|done..].
    intros v (i & pos & Hi & Hpos & ->)%Hborne.
    destruct (binaire i pos Hi Hpos); lra. }
  change (inject_Z 1) with 1%Q in Hc. lra.
Qed.

Lemma colonne_bornee pos (v : Var) :
  (pos < n)%nat → v ∈ (λ i, x i pos) <$> seq 0 n →
  ∃ i pos, (i < n)%nat ∧ (pos < n)%nat ∧ v = (i, pos).
Proof.
  intros Hpos (i & -> & Hi%elem_of_seq)%list_elem_of_fmap.
  exists i, pos. rewrite x_eq by lia. repeat split; lia.
Qed.

Lemma ligne_bornee i (v : Var) :
  (i < n)%nat → v ∈ (λ pos, x i pos) <$> seq 0 n →
  ∃ i pos, (i < n)%nat ∧ (pos < n)%nat ∧ v = (i, pos).
Proof.
  intros Hi (pos & -> & Hpos%elem_of_seq)%list_elem_of_fmap.
  exists i, pos. rewrite x_eq by lia. repeat split; lia.
Qed.

(** At most one slide per position. *)
Lemma une_slide_par_position pos i j :
  (pos < n)%nat → (i < n)%nat → (j < n)%nat →
  (X (i, pos) == 1)%Q → (X (j, pos) == 1)%Q → i = j.
Proof.
  intros Hpos Hi Hj HXi HXj.
  enough ((i, pos) = (j, pos)) by congruence.
  apply (exclusif ((λ i, x i pos) <$> seq 0 n) None); [| |..|done|done].
  - rewrite construire_modele_eq. cbn [fst m_constrs]. fold n x.
    apply elem_of_app; left.
    apply list_elem_of_fmap. exists pos. split; [done|apply elem_of_seq; lia].
  - intros v. by apply colonne_bornee.
  - apply list_elem_of_fmap. exists i. rewrite x_eq by lia.
    split; [done|apply elem_of_seq; lia].
  - apply list_elem_of_fmap. exists j. rewrite x_eq by lia.
    split; [done|apply elem_of_seq; lia].
Qed.

(** At most one position per slide. *)
Lemma une_position_par_slide i p q :
  (i < n)%nat → (p < n)%nat → (q < n)%nat →
  (X (i, p) == 1)%Q → (X (i, q) == 1)%Q → p = q.
Proof.
  intros Hi Hp Hq HXp HXq.
  enough ((i, p) = (i, q)) by congruence.
  apply (exclusif ((λ pos, x i pos) <$> seq 0 n) None); [| |..|done|done].
  - rewrite construire_modele_eq. cbn [fst m_constrs]. fold n x.
    apply elem_of_app; right. apply elem_of_app; left.
    apply list_elem_of_fmap. exists i. split; [done|apply elem_of_seq; lia].
  - intros v. by apply ligne_bornee.
  - apply list_elem_of_fmap. exists p. rewrite x_eq by lia.
    split; [done|apply elem_of_seq; lia].
  - apply list_elem_of_fmap. exists q. rewrite x_eq by lia.
    split; [done|apply elem_of_seq; lia].
Qed.

(** At most one selected slide per photo id. *)
Lemma une_slide_par_photo photo_id i j p q :
  photo_id ∈ photos_de slides i → photo_id ∈ photos_de slides j →
  (p < n)%nat → (q < n)%nat →
  (X (i, p) == 1)%Q → (X (j, q) == 1)%Q → i = j ∧ p = q.
Proof.
  unfold photos_de. intros Hi Hj Hp Hq HXp HXq.
  destruct (slides !! i) as [[ids_i t_i]|] eqn:Ei; [|by apply elem_of_nil in Hi].
  destruct (slides !! j) as [[ids_j t_j]|] eqn:Ej; [|by apply elem_of_nil in Hj].
  simpl in Hi, Hj.
  pose proof (lookup_lt_Some _ _ _ Ei) as Hin. pose proof (lookup_lt_Some _ _ _ Ej) as Hjn.
  fold n in Hin, Hjn.
  destruct (utilisations_couvre x slides i ids_i t_i photo_id Ei Hi) as (us & Hus & Hcov).
  destruct (utilisations_couvre x slides j ids_j t_j photo_id Ej Hj) as (us' & Hus' & Hcov').
  rewrite Hus in Hus'. injection Hus' as <-.
  enough ((i, p) = (j, q)) as [= -> ->] by done.
  apply (exclusif us (Some (nom_contrainte photo_id))); [| |..|done|done].
  - rewrite construire_modele_eq. cbn [fst m_constrs]. fold n x.
    apply elem_of_app; right. apply elem_of_app; right. apply elem_of_app; left.
    apply list_elem_of_fmap. exists (photo_id, us). split; [done|].
    by apply assoc_elem_of.
  - intros v Hv.
    destruct (utilisations_bornees x slides photo_id us v) as (i' & pos & ? & ? & ->);
      [by apply assoc_elem_of|done|].
    exists i', pos. fold n. by rewrite x_eq.
  - rewrite <- (x_eq i p) by done. by apply Hcov.
  - rewrite <- (x_eq j q) by done. by apply Hcov'.
Qed.

End contraintes.

Lemma realisable_au_plus_of m X : realisable m X → realisable_au_plus m X.
Proof.
  intros [Hbin Hc]. split; [done|].
  eapply Forall_impl; [exact Hc|]. auto.
Qed.

(** C3: an assignment of the binary variables that satisfies the
    constraints of the model gives each slide at most one position, each
    position at most one slide and each photo id at most one selected
    slide; the solution extracted from it repeats no slide index and shows
    no photo id in two of its slides. *)
Theorem modele_unicite (slides : list slide) (X : Var → Q) :
  realisable (construire_modele slides).1 X →
  let n := length slides in
  (∀ i p q, (i < n)%nat → (p < n)%nat → (q < n)%nat →
            (X (i, p) == 1)%Q → (X (i, q) == 1)%Q → p = q)
  ∧ (∀ pos i j, (pos < n)%nat → (i < n)%nat → (j < n)%nat →
                (X (i, pos) == 1)%Q → (X (j, pos) == 1)%Q → i = j)
  ∧ (∀ photo_id i j p q,
       photo_id ∈ photos_de slides i → photo_id ∈ photos_de slides j →
       (p < n)%nat → (q < n)%nat →
       (X (i, p) == 1)%Q → (X (j, q) == 1)%Q → i = j ∧ p = q)
  ∧ ∃ sol,
      get_solution (construire_modele slides).2 (λ v, Ok (X v)) slides = Ok sol
      ∧ NoDup sol
      ∧ ∀ a b ia ib photo_id,
          sol !! a = Some ia → sol !! b = Some ib →
          photo_id ∈ photos_de slides ia → photo_id ∈ photos_de slides ib →
          a = b.
Proof.
  intros Hreal%realisable_au_plus_of n.
  split; [|split; [|split]].
  - intros i p q. by apply une_position_par_slide.
  - intros pos i j. by apply une_slide_par_position.
  - intros photo_id i j p q. by apply une_slide_par_photo.
  - destruct (get_solution_ok slides X) as (sol & Hsol & Hlen & Hpref & _).
    fold n in Hlen, Hpref.
    assert (∀ a ia, sol !! a = Some ia →
              (a < n)%nat ∧ (ia < n)%nat ∧ (X (ia, a) == 1)%Q) as Hsel.
    { intros a ia Ha. pose proof (lookup_lt_Some _ _ _ Ha) as Hlt.
      destruct (Hpref a Hlt) as (i & Hi & Hin & Hret & _).
      rewrite Ha in Hi. injection Hi as <-.
      repeat split; [lia|done|].
      apply retenue_binaire; [|done]. apply (binaire slides X Hreal); [done|].
      fold n. lia. }
    exists sol. split; [done|]. split.
    + apply NoDup_alt. intros a b i Ha Hb.
      destruct (Hsel a i Ha) as (? & ? & ?), (Hsel b i Hb) as (? & ? & ?).
      by apply (une_position_par_slide slides X Hreal i).
    + intros a b ia ib photo_id Ha Hb Hia Hib.
      destruct (Hsel a ia Ha) as (? & ? & ?), (Hsel b ib Hb) as (? & ? & ?).
      by apply (une_slide_par_photo slides X Hreal photo_id ia ib).
Qed.

(** ** The empty sequence *)

Lemma valeur_zero e : (valeur (λ _, 0%Q) e == 0)%Q.
Proof. induction e as [|v e IH]; simpl; [reflexivity|]. rewrite IH. lra. Qed.

(** The all-zero assignment meets every at-most-one constraint. *)
Lemma tout_zero_au_plus (slides : list slide) :
  realisable_au_plus (construire_modele slides).1 (λ _, 0%Q).
Proof.
  split.
  - apply Forall_forall. intros; left; reflexivity.
  - rewrite construire_modele_eq. cbn [fst m_constrs].
    rewrite !Forall_app, !Forall_fmap, Forall_singleton.
    repeat split; try (apply Forall_forall; intros a _); try destruct a;
      simpl; intros Hs; try discriminate Hs;
      unfold respecte; simpl; rewrite valeur_zero; unfold Qle; simpl; lia.
Qed.

(** The all-zero assignment breaks the constraint of line 86. *)
Lemma tout_zero_irrealisable (slides : list slide) :
  ¬ realisable (construire_modele slides).1 (λ _, 0%Q).
Proof.
  intros [_ Hc]. rewrite construire_modele_eq in Hc. cbn [fst m_constrs] in Hc.
  rewrite !Forall_app, Forall_singleton in Hc.
  destruct Hc as (_ & _ & _ & Hc). unfold respecte in Hc. simpl in Hc.
  rewrite valeur_zero in Hc. unfold Qle in Hc; simpl in Hc. lia.
Qed.

Lemma get_solution_vide slide_vars X : get_solution slide_vars X [] = Ok [].
Proof. done. Qed.

(** C4: the all-zero assignment satisfies the at-most-one constraints of
    the model (positions, slides, photos) and violates its last constraint,
    at least one slide at position 0, whatever the candidate universe: the
    empty sequence is not an assignment of the model.  For an empty
    candidate universe the extractor returns the empty sequence. *)
Theorem solution_vide (slides : list slide) :
  realisable_au_plus (construire_modele slides).1 (λ _, 0%Q)
  ∧ ¬ realisable (construire_modele slides).1 (λ _, 0%Q)
  ∧ ∀ slide_vars X, get_solution slide_vars X [] = Ok [].
Proof.
  split; [apply tout_zero_au_plus|].
  split; [apply tout_zero_irrealisable|].
  apply get_solution_vide.
Qed.

(** ** Photo catalogue *)

Section catalogue.

Lemma int_erreur s e : Py.int s = Raise e → e = ValueError.
Proof.
  unfold Py.int.
  destruct (match Py.strip_int s with
            | String "-" r => (true, r)
            | String "+" r => (false, r)
            | _ => (false, Py.strip_int s)
            end) as [neg body].
  destruct (Py.int_digits body 0 false); [done|]. by intros [= <-].
Qed.

(** The three outcomes of reading one record. *)
Lemma lire_ligne_cas i l :
  lire_ligne i l =
    match jetons l with
    | o :: c :: rest =>
        match Py.int c with
        | Ok m => Ok (i, o, list_to_set (Py.slice (o :: c :: rest) 2 (2 + m)))
        | Raise e => Raise e
        end
    | _ => Raise IndexError
    end.
Proof.
  unfold lire_ligne.
  destruct (jetons l) as [|o [|c rest]]; try done; simpl; by destruct (Py.int c).
Qed.

Lemma lire_ligne_ok i l o c rest m :
  jetons l = o :: c :: rest → Py.int c = Ok m →
  lire_ligne i l = Ok (i, o, list_to_set (Py.slice (o :: c :: rest) 2 (2 + m))).
Proof. intros Hj Hc. by rewrite lire_ligne_cas, Hj, Hc. Qed.

Lemma lire_ligne_echec i l :
  ((length (jetons l) < 2)%nat
   ∨ ∃ o c rest e, jetons l = o :: c :: rest ∧ Py.int c = Raise e) →
  ∃ e, lire_ligne i l = Raise e ∧ (e = IndexError ∨ e = ValueError).
Proof.
  rewrite lire_ligne_cas. intros [Hlen|(o & c & rest & e & -> & Hc)].
  - destruct (jetons l) as [|o [|c rest]]; simpl in Hlen; try lia; eauto.
  - rewrite Hc. apply int_erreur in Hc as ->. eauto.
Qed.

Lemma lire_ligne_id i l p : lire_ligne i l = Ok p → photo_id p = i.
Proof.
  rewrite lire_ligne_cas. destruct (jetons l) as [|o [|c rest]]; try done.
  destruct (Py.int c); [|done]. by intros [= <-].
Qed.

(** The slice of the tokens of a record, by the sign of the count. *)
Lemma slice_jetons (o c : string) rest m :
  Py.slice (o :: c :: rest) 2 (2 + m) =
    if decide (0 ≤ m) then take (Z.to_nat m) rest
    else if decide (-2 ≤ m) then []
    else take (Z.to_nat (Py.len rest + 2 + m)) rest.
Proof.
  unfold Py.slice, Py.slice_bound, Py.len. cbn [length].
  replace (2 <? 0) with false by done.
  replace (Z.to_nat (2 `min` Z.of_nat (S (S (length rest))))) with 2%nat by lia.
  cbn [drop]. rewrite drop_0.
  repeat case_decide; destruct (2 + m <? 0) eqn:E; try lia.
  - destruct (decide (m ≤ Z.of_nat (length rest))) as [Hle|Hgt].
    + f_equal. lia.
    + rewrite !take_ge by lia. done.
  - replace (Z.to_nat _) with 0%nat by lia. done.
  - f_equal. lia.
Qed.

(** The loop reads one record per index, and stops at the first record
    that raises. *)
Lemma lire_lignes_ok k : ∀ a f acc,
  (∀ j, (j < k)%nat → ∃ p, lire_ligne (a + j) (ligne f j) = Ok p) →
  ∃ ps, lire_lignes (seq a k) f acc = Ok (acc ++ ps) ∧ length ps = k
        ∧ ∀ j, (j < k)%nat →
            ∃ p, ps !! j = Some p ∧ lire_ligne (a + j) (ligne f j) = Ok p.
Proof.
  induction k as [|k IH]; intros a f acc Hok; simpl.
  - exists []. rewrite app_nil_r. split; [done|split; [done|intros; lia]].
  - destruct (Py.readline f) as [l f'] eqn:Er.
    destruct (Hok 0%nat) as [p Hp]; [lia|].
    unfold ligne in Hp. simpl in Hp. rewrite Er, Nat.add_0_r in Hp.
    simpl in Hp. rewrite Hp. simpl.
    destruct (IH (S a) f' (acc ++ [p])) as (ps & -> & Hlen & Hps).
    { intros j Hj. destruct (Hok (S j)) as [q Hq]; [lia|].
      exists q. unfold ligne in *. simpl in Hq. rewrite Er in Hq. simpl in Hq.
      by replace (S a + j)%nat with (a + S j)%nat by lia. }
    exists (p :: ps). rewrite <- app_assoc. split; [done|split; [simpl; lia|]].
    intros [|j] Hj.
    + exists p. split; [done|]. unfold ligne. simpl. by rewrite Er, Nat.add_0_r.
    + destruct (Hps j) as (q & Hq & Hl); [lia|].
      exists q. split; [done|]. unfold ligne in *. simpl. rewrite Er. simpl.
      by replace (a + S j)%nat with (S a + j)%nat by lia.
Qed.

Lemma lire_lignes_echec k : ∀ a f acc j,
  (j < k)%nat → (∃ e, lire_ligne (a + j) (ligne f j) = Raise e
                      ∧ (e = IndexError ∨ e = ValueError)) →
  ∃ e, lire_lignes (seq a k) f acc = Raise e ∧ (e = IndexError ∨ e = ValueError).
Proof.
  induction k as [|k IH]; intros a f acc j Hj Hbad; [lia|]. simpl.
  destruct (Py.readline f) as [l f'] eqn:Er.
  destruct (lire_ligne a l) as [p|e] eqn:El; simpl.
  - destruct j as [|j].
    + destruct Hbad as (e & He & _). unfold ligne in He. simpl in He.
      rewrite Er, Nat.add_0_r in He. simpl in He. congruence.
    + apply (IH (S a) f' _ j); [lia|].
      destruct Hbad as (e & He & Hk). exists e. split; [|done].
      unfold ligne in *. simpl in He. rewrite Er in He. simpl in He.
      by replace (S a + j)%nat with (a + S j)%nat by lia.
  - exists e. split; [done|].
    rewrite lire_ligne_cas in El. destruct (jetons l) as [|o [|c rest]];
      try (injection El as <-; by left).
    destruct (Py.int c) eqn:Ec; [done|]. injection El as <-.
    apply int_erreur in Ec. by right.
Qed.

Section fichier.

Variable fs : string → option string.
Variables (filename f : string) (n : Z).

Hypothesis Hf : fs filename = Some f.
Hypothesis Hn : Py.int (Py.readline f).1 = Ok n.

Lemma lire_input_eq :
  lire_input fs filename = lire_lignes (Py.range n) (Py.readline f).2 [].
Proof.
  unfold lire_input. rewrite Hf. simpl.
  destruct (Py.readline f) as [l f']. simpl in *. by rewrite Hn.
Qed.

Lemma lire_input_ok :
  (∀ k, (k < Z.to_nat n)%nat →
     ∃ o c rest m, jetons (enregistrement f k) = o :: c :: rest
                   ∧ Py.int c = Ok m) →
  ∃ photos,
    lire_input fs filename = Ok photos
    ∧ length photos = Z.to_nat n
    ∧ ∀ k o c rest m,
        (k < Z.to_nat n)%nat →
        jetons (enregistrement f k) = o :: c :: rest → Py.int c = Ok m →
        photos !! k
        = Some (k, o, list_to_set (Py.slice (o :: c :: rest) 2 (2 + m))).
Proof.
  intros Hrec. rewrite lire_input_eq. unfold Py.range.
  destruct (lire_lignes_ok (Z.to_nat n) 0 (Py.readline f).2 [])
    as (ps & -> & Hlen & Hps).
  { intros j Hj. destruct (Hrec j Hj) as (o & c & rest & m & Hj' & Hc).
    eexists. by apply lire_ligne_ok. }
  exists ps. split; [done|split; [done|]].
  intros k o c rest m Hk Hj Hc.
  destruct (Hps k Hk) as (p & Hpk & Hp).
  fold (enregistrement f k) in Hp.
  rewrite (lire_ligne_ok _ _ _ _ _ _ Hj Hc) in Hp. simpl in Hp, Hpk |- *.
  injection Hp as <-. exact Hpk.
Qed.

Lemma lire_input_echec k :
  (k < Z.to_nat n)%nat →
  ((length (jetons (enregistrement f k)) < 2)%nat
   ∨ ∃ o c rest e, jetons (enregistrement f k) = o :: c :: rest
                   ∧ Py.int c = Raise e) →
  ∃ e, lire_input fs filename = Raise e ∧ (e = IndexError ∨ e = ValueError).
Proof.
  intros Hk Hbad. rewrite lire_input_eq. unfold Py.range.
  apply (lire_lignes_echec _ _ _ _ k Hk). by apply lire_ligne_echec.
Qed.

End fichier.

End catalogue.

(** A header whose count is followed by the separator 28 is not an integer
    for [int]: nothing is loaded. *)
Example entete_separateur :
  Py.int (Py.readline Echantillon.fichier_separateur).1 = Raise ValueError
  ∧ lire_input Echantillon.fs_separateur "s.txt" = Raise ValueError.
Proof. split; vm_compute; reflexivity. Qed.

(** C5, counterexample: a file whose first record has the orientation
    symbol X and declares three tags but holds one, and whose second record
    declares one tag but holds three, is loaded without error. *)
Lemma chargement_sans_erreur :
  lire_input Exemple.fs_libre "b.txt"
  = Ok [ (0%nat, "X", {["a"]}); (1%nat, "V", {["a"]}) ].
Proof. vm_compute. reflexivity. Qed.

(** C5: loading checks neither the orientation symbol nor the tag count.
    When the header is an integer n and each of the n records has an
    orientation token and an integer count token, loading succeeds and
    record k becomes the photo of id k with that orientation token and the
    tokens of the slice [2 : 2 + count] as tags.  When one of the n records
    has fewer than two tokens, or a count token that is not an integer,
    loading raises an error and returns no catalogue. *)
Theorem lire_input_sans_controle
    (fs : string → option string) (filename f : string) (n : Z) :
  fs filename = Some f → Py.int (Py.readline f).1 = Ok n →
  ((∀ k, (k < Z.to_nat n)%nat →
      ∃ o c rest m, jetons (enregistrement f k) = o :: c :: rest
                    ∧ Py.int c = Ok m) →
   ∃ photos,
     lire_input fs filename = Ok photos
     ∧ length photos = Z.to_nat n
     ∧ ∀ k o c rest m,
         (k < Z.to_nat n)%nat →
         jetons (enregistrement f k) = o :: c :: rest → Py.int c = Ok m →
         photos !! k
         = Some (k, o, list_to_set (Py.slice (o :: c :: rest) 2 (2 + m))))
  ∧ (∀ k, (k < Z.to_nat n)%nat →
       ((length (jetons (enregistrement f k)) < 2)%nat
        ∨ ∃ o c rest e, jetons (enregistrement f k) = o :: c :: rest
                        ∧ Py.int c = Raise e) →
       ∃ e, lire_input fs filename = Raise e
            ∧ (e = IndexError ∨ e = ValueError)).
Proof.
  intros Hf Hn. split.
  - by apply lire_input_ok.
  - intros k. by apply lire_input_echec.
Qed.

(** C9: when the header is an integer n and each of the n records has an
    orientation token and an integer count token, loading and slide
    generation both succeed; a record k whose orientation token is neither
    H nor V is kept in the catalogue as the photo of id k with that token,
    the slides are those generated without it, and no slide shows it. *)
Theorem orientation_inconnue
    (fs : string → option string) (filename f : string) (n : Z) :
  fs filename = Some f → Py.int (Py.readline f).1 = Ok n →
  (∀ k, (k < Z.to_nat n)%nat →
     ∃ o c rest m, jetons (enregistrement f k) = o :: c :: rest
                   ∧ Py.int c = Ok m) →
  ∃ photos slides,
    lire_input fs filename = Ok photos
    ∧ creer_slides photos = Ok slides
    ∧ ∀ k o c rest,
        (k < Z.to_nat n)%nat →
        jetons (enregistrement f k) = o :: c :: rest →
        o ≠ "H" → o ≠ "V" →
        (∃ tags, photos !! k = Some (k, o, tags))
        ∧ creer_slides (delete k photos) = Ok slides
        ∧ ∀ s, s ∈ slides → k ∉ s.1.
Proof.
  intros Hf Hn Hrec.
  destruct (lire_input_ok fs filename f n Hf Hn Hrec) as (photos & Hlire & Hlen & Hphotos).
  exists photos. eexists. split; [done|]. split; [apply creer_slides_eq|].
  intros k o c rest Hk Hj HH HV.
  destruct (Hrec k Hk) as (o' & c' & rest' & m & Hj' & Hc).
  rewrite Hj in Hj'. injection Hj' as <- <- <-.
  pose proof (Hphotos k o c rest m Hk Hj Hc) as Hpk.
  split; [eauto|]. split.
  - rewrite <- creer_slides_eq. by eapply creer_slides_delete.
  - intros s Hs Hid.
    destruct (ids_des_slides photos _ s k (creer_slides_eq photos) Hs Hid)
      as (p & Hp & Hidp & Ho).
    apply list_elem_of_lookup in Hp as [j Hpj].
    pose proof (lookup_lt_Some _ _ _ Hpj) as Hjn. rewrite Hlen in Hjn.
    destruct (Hrec j Hjn) as (oj & cj & restj & mj & Hjj & Hcj).
    pose proof (Hphotos j oj cj restj mj Hjn Hjj Hcj) as Hpj'.
    assert (Some p = Some (j, oj, list_to_set (Py.slice (oj :: cj :: restj) 2 (2 + mj))))
      as [= ->] by (etrans; [symmetry; exact Hpj|exact Hpj']).
    unfold photo_id in Hidp. simpl in Hidp. subst j.
    rewrite Hj in Hjj. injection Hjj as <- <- <-.
    unfold photo_orientation in Ho. simpl in Ho. by destruct Ho.
Qed.

(** C10, counterexample: with the declared count -3 the tags are the tokens
    after the count except the last one, not the first -3 tokens (none). *)
Lemma tags_compte_negatif :
  ∃ tags : gset string,
    lire_ligne 0 "H -3 a b c" = Ok (0%nat, "H", tags)
    ∧ tags = {["a"; "b"]}
    ∧ tags ≠ list_to_set (take (Z.to_nat (-3)) ["a"; "b"; "c"]).
Proof.
  exists {["a"; "b"]}. split; [by vm_compute|]. split; [done|].
  simpl. intros H. assert ("a" ∈ (∅ : gset string)) as Hin by (rewrite <- H; set_solver).
  by apply not_elem_of_empty in Hin.
Qed.

(** C10: a record with an orientation token and an integer count token is
    read without error.  For a non-negative count the tags are the set of
    the first count tokens that follow it: further tokens are ignored, and
    when fewer tokens are present the tags are all of them.  For a negative
    count the end of the slice is counted from the end of the line: no tag
    for -1 and -2, and below that the tokens after the count except the
    last -(count + 2). *)
Theorem tags_premiers_jetons (i : nat) (l o c : string) (rest : list string)
    (num_tags : Z) :
  jetons l = o :: c :: rest → Py.int c = Ok num_tags →
  ∃ tags : gset string,
    lire_ligne i l = Ok (i, o, tags)
    ∧ (0 ≤ num_tags → tags = list_to_set (take (Z.to_nat num_tags) rest))
    ∧ (Py.len rest ≤ num_tags → tags = list_to_set rest)
    ∧ (-2 ≤ num_tags < 0 → tags = ∅)
    ∧ (num_tags < -2 →
       tags = list_to_set (take (Z.to_nat (Py.len rest + 2 + num_tags)) rest)).
Proof.
  intros Hj Hc. eexists. split; [by apply lire_ligne_ok|].
  rewrite slice_jetons. unfold Py.len.
  repeat split; intros H; repeat case_decide; try lia; try done.
  rewrite take_ge; [done|]. lia.
Qed.

(** ** Driver *)

Section pilote.

Variable fs : string → option string.
Variable optimize : Model → option (Var → Q).

(** The possible runs of [main]. *)
Lemma main_cas argv :
  (length argv ≠ 2%nat ∧ main fs optimize argv = ([Print usage], SysExit 1))
  ∨ (length argv = 2%nat
     ∧ ((∃ e, main fs optimize argv = ([], Uncaught e))
        ∨ (∃ m e, TimeLimit m = Some 90
                  ∧ main fs optimize argv = ([Optimize m], Uncaught e))
        ∨ (∃ m content st,
             TimeLimit m = Some 90
             ∧ main fs optimize argv
               = ([Optimize m; WriteFile "slideshow.sol" content], st)
             ∧ (st = Done ∨ ∃ e, st = Uncaught e)))).
Proof.
  unfold main. case_decide as Hlen; [left; done|right].
  split; [lia|].
  destruct (lire_input _ _) as [photos|e]; [|left; eauto].
  destruct (creer_slides photos) as [slides|e]; [|left; eauto].
  destruct (construire_modele slides) as [model slide_vars].
  destruct (get_solution _ _ _) as [sol|e].
  - right; right.
    destruct (ecrire_solution sol slides) as [content [e|]];
      eexists _, _, _; (split; [|split; [reflexivity|]]); [done|eauto|done|eauto].
  - right; left. by exists (set_TimeLimit 90 model), e.
Qed.

(** C8: with an argument count other than one (the list [argv] also holds
    the program name) the run prints the usage message and exits with
    code 1; a run that completes has written its output to the file
    slideshow.sol, no run writes any other file, and the argument count
    is the only reason for which [main] itself exits. *)
Theorem main_ligne_de_commande argv :
  (length argv ≠ 2%nat → main fs optimize argv = ([Print usage], SysExit 1))
  ∧ (∀ evs, main fs optimize argv = (evs, Done) →
       ∃ m content, evs = [Optimize m; WriteFile "slideshow.sol" content])
  ∧ (∀ filename content,
       WriteFile filename content ∈ (main fs optimize argv).1 →
       filename = "slideshow.sol")
  ∧ (∀ evs code, main fs optimize argv = (evs, SysExit code) →
       length argv ≠ 2%nat ∧ code = 1 ∧ evs = [Print usage]).
Proof.
  destruct (main_cas argv)
    as [[Hlen ->]|(Hlen & [(e & ->)|[(m & e & _ & ->)|(m & c & st & _ & -> & Hst)]])];
    (split; [|split; [|split]]); try (intros Hne; by destruct Hne);
    try (intros ? Heq; discriminate Heq); cbn [fst].
  - done.
  - intros ?? [=]%list_elem_of_singleton.
  - by intros ?? [= <- <-].
  - intros ?? []%elem_of_nil.
  - intros ?? [=]%list_elem_of_singleton.
  - intros evs [= <- _]. eauto.
  - intros ?? [[=]|[= -> _]%list_elem_of_singleton]%elem_of_cons. done.
  - intros ?? [= _ ->]. by destruct Hst as [|[]].
Qed.

Lemma limite_90 argv m :
  Optimize m ∈ (main fs optimize argv).1 → TimeLimit m = Some 90.
Proof.
  destruct (main_cas argv)
    as [[Hlen ->]|(Hlen & [(e & ->)|[(m' & e & Ht & ->)|(m' & c & st & Ht & -> & _)]])];
    cbn [fst]; intros Hin.
  - apply list_elem_of_singleton in Hin. done.
  - by apply elem_of_nil in Hin.
  - apply list_elem_of_singleton in Hin. by injection Hin as ->.
  - apply elem_of_cons in Hin as [Hin|Hin]; [by injection Hin as ->|].
    apply list_elem_of_singleton in Hin. done.
Qed.

(** C7: the time limit handed to the solver is the constant 90 in every
    run; it cannot be configured, and a further command-line argument
    (such as an option time_limit_seconds) ends the run with the usage
    message. *)
Theorem limite_de_temps argv :
  (∀ m, Optimize m ∈ (main fs optimize argv).1 → TimeLimit m = Some 90)
  ∧ ((2 < length argv)%nat →
     main fs optimize argv = ([Print usage], SysExit 1)).
Proof.
  split; [intros m; apply limite_90|].
  intros Hlen. unfold main. rewrite decide_True by lia. done.
Qed.

End pilote.

(** A complete run on the sample file. *)
Example main_exemple :
  ∃ m, main Exemple.fs Exemple.solveur Exemple.argv
       = ([Optimize m;
           WriteFile "slideshow.sol"
             ("2" +:+ Py.nl +:+ "0" +:+ Py.nl +:+ "1" +:+ Py.nl)], Done).
Proof. eexists. vm_compute. reflexivity. Qed.

(** C7, counterexample: an option time_limit_seconds on the command line is
    not recognised, and no run gives the solver a limit other than 90. *)
Lemma limite_non_configurable :
  main Exemple.fs Exemple.solveur
       ["slideshow.py"; "a.txt"; "--time_limit_seconds=30"]
    = ([Print usage], SysExit 1)
  ∧ ¬ ∃ fs optimize argv m,
        Optimize m ∈ (main fs optimize argv).1 ∧ TimeLimit m ≠ Some 90.
Proof.
  split; [done|].
  intros (fs & optimize & argv & m & Hin & Hne).
  by apply Hne, (limite_90 fs optimize argv).
Qed.

(** C4, counterexample: on the three candidate slides of the sample file the
    all-zero assignment is not an assignment of the model. *)
Lemma solution_vide_irrealisable :
  Exemple.slides ≠ []
  ∧ ¬ realisable (construire_modele Exemple.slides).1 (λ _, 0%Q).
Proof. split; [done|apply tout_zero_irrealisable]. Qed.

(** ** Instances on the sample data *)

(** The computed test is sound. *)
Lemma realisable_b_correct m X : realisable_b m X = true → realisable m X.
Proof.
  unfold realisable_b, realisable.
  intros [Hv Hc]%andb_true_iff. split.
  - apply Forall_forall. intros d Hd%list_elem_of_In.
    rewrite forallb_forall in Hv. specialize (Hv d Hd).
    apply orb_true_iff in Hv as [H|H]; apply Qeq_bool_iff in H; auto.
  - apply Forall_forall. intros c Hin%list_elem_of_In.
    rewrite forallb_forall in Hc. specialize (Hc c Hin).
    unfold respecte_b, respecte in *.
    destruct (c_sense c); by apply Qle_bool_iff.
Qed.

(** C2 on one horizontal and three vertical photos, whose ids are unique. *)
Lemma creer_slides_spec_witness :
  NoDup (photo_id <$> Exemple.photos)
  ∧ let hs := filter (λ p, photo_orientation p = "H") Exemple.photos in
    let vs := filter (λ p, photo_orientation p = "V") Exemple.photos in
    ∃ (paires : list (nat * nat)) (doubles : list slide),
      creer_slides Exemple.photos
      = Ok (((λ p, ([photo_id p], photo_tags p)) <$> hs) ++ doubles)
      ∧ length (((λ p, ([photo_id p], photo_tags p)) <$> hs) ++ doubles)
        = (1 + 3)%nat
      ∧ StronglySorted lex_lt paires
      ∧ (∀ i j, (i, j) ∈ paires ↔ (i < j < 3)%nat)
      ∧ Forall2 (λ s '(i, j), ∃ p q,
                   vs !! i = Some p ∧ vs !! j = Some q
                   ∧ s = ([photo_id p; photo_id q],
                          photo_tags p ∪ photo_tags q)
                   ∧ photo_id p ≠ photo_id q)
                doubles paires.
Proof.
  assert (NoDup (photo_id <$> Exemple.photos)) as Hnd.
  { apply (bool_decide_unpack _). vm_compute. exact I. }
  split; [exact Hnd|]. intros hs vs.
  destruct (creer_slides_spec Exemple.photos)
    as (paires & doubles & Hok & Hlen & Htri & Hin & Hdoubles).
  exists paires, doubles.
  split; [exact Hok|]. split; [exact Hlen|]. split; [exact Htri|].
  split; [exact Hin|].
  eapply Forall2_impl; [exact Hdoubles|].
  intros s [i j] (p & q & Hp & Hq & Hs & Hdist).
  exists p, q. split; [exact Hp|]. split; [exact Hq|]. split; [exact Hs|].
  exact (Hdist Hnd).
Defined.

(** C3 on the slides of the sample file, with slide 0 at position 0 and
    slide 1 at position 1. *)
Lemma modele_unicite_witness :
  realisable (construire_modele Exemple.slides).1 Exemple.X
  ∧ let n := length Exemple.slides in
    (∀ i p q, (i < n)%nat → (p < n)%nat → (q < n)%nat →
              (Exemple.X (i, p) == 1)%Q → (Exemple.X (i, q) == 1)%Q → p = q)
    ∧ (∀ pos i j, (pos < n)%nat → (i < n)%nat → (j < n)%nat →
                  (Exemple.X (i, pos) == 1)%Q → (Exemple.X (j, pos) == 1)%Q →
                  i = j)
    ∧ (∀ photo_id i j p q,
         photo_id ∈ photos_de Exemple.slides i →
         photo_id ∈ photos_de Exemple.slides j →
         (p < n)%nat → (q < n)%nat →
         (Exemple.X (i, p) == 1)%Q → (Exemple.X (j, q) == 1)%Q →
         i = j ∧ p = q)
    ∧ ∃ sol,
        get_solution (construire_modele Exemple.slides).2
                     (λ v, Ok (Exemple.X v)) Exemple.slides = Ok sol
        ∧ NoDup sol
        ∧ ∀ a b ia ib photo_id,
            sol !! a = Some ia → sol !! b = Some ib →
            photo_id ∈ photos_de Exemple.slides ia →
            photo_id ∈ photos_de Exemple.slides ib →
            a = b.
Proof.
  assert (realisable (construire_modele Exemple.slides).1 Exemple.X) as H.
  { apply realisable_b_correct. vm_compute. reflexivity. }
  split; [exact H|exact (modele_unicite Exemple.slides Exemple.X H)].
Defined.

(** C5 on a file with an unknown orientation symbol and two counts that do
    not match, which is loaded, and on a file whose second record is
    missing, which is not. *)
Lemma lire_input_sans_controle_witness :
  (Exemple.fs_libre "b.txt" = Some Exemple.fichier_libre
   ∧ Py.int (Py.readline Exemple.fichier_libre).1 = Ok 2
   ∧ (∀ k, (k < Z.to_nat 2)%nat →
        ∃ o c rest m,
          jetons (enregistrement Exemple.fichier_libre k) = o :: c :: rest
          ∧ Py.int c = Ok m)
   ∧ ∃ photos,
       lire_input Exemple.fs_libre "b.txt" = Ok photos
       ∧ length photos = Z.to_nat 2
       ∧ ∀ k o c rest m,
           (k < Z.to_nat 2)%nat →
           jetons (enregistrement Exemple.fichier_libre k) = o :: c :: rest →
           Py.int c = Ok m →
           photos !! k
           = Some (k, o, list_to_set (Py.slice (o :: c :: rest) 2 (2 + m))))
  ∧ (Exemple.fs_tronque "c.txt" = Some Exemple.fichier_tronque
     ∧ Py.int (Py.readline Exemple.fichier_tronque).1 = Ok 2
     ∧ (1 < Z.to_nat 2)%nat
     ∧ (length (jetons (enregistrement Exemple.fichier_tronque 1)) < 2)%nat
     ∧ ∃ e, lire_input Exemple.fs_tronque "c.txt" = Raise e
            ∧ (e = IndexError ∨ e = ValueError)).
Proof.
  split.
  - assert (Exemple.fs_libre "b.txt" = Some Exemple.fichier_libre) as Hf
      by reflexivity.
    assert (Py.int (Py.readline Exemple.fichier_libre).1 = Ok 2) as Hn
      by (vm_compute; reflexivity).
    assert (∀ k, (k < Z.to_nat 2)%nat →
              ∃ o c rest m,
                jetons (enregistrement Exemple.fichier_libre k) = o :: c :: rest
                ∧ Py.int c = Ok m) as Hrec.
    { intros [|[|k]] Hk.
      - exists "X", "3", ["a"], 3. split; vm_compute; reflexivity.
      - exists "V", "1", ["a"; "b"; "c"], 1. split; vm_compute; reflexivity.
      - simpl in Hk. lia. }
    split; [exact Hf|]. split; [exact Hn|]. split; [exact Hrec|].
    exact (proj1 (lire_input_sans_controle Exemple.fs_libre "b.txt"
                    Exemple.fichier_libre 2 Hf Hn) Hrec).
  - assert (Exemple.fs_tronque "c.txt" = Some Exemple.fichier_tronque) as Hf
      by reflexivity.
    assert (Py.int (Py.readline Exemple.fichier_tronque).1 = Ok 2) as Hn
      by (vm_compute; reflexivity).
    assert (1 < Z.to_nat 2)%nat as Hk by (simpl; lia).
    assert (length (jetons (enregistrement Exemple.fichier_tronque 1)) < 2)%nat
      as Hcourt by (vm_compute; lia).
    split; [exact Hf|]. split; [exact Hn|]. split; [exact Hk|].
    split; [exact Hcourt|].
    exact (proj2 (lire_input_sans_controle Exemple.fs_tronque "c.txt"
                    Exemple.fichier_tronque 2 Hf Hn) 1%nat Hk (or_introl Hcourt)).
Defined.

(** C9 on a file of four records whose record 1 has the orientation symbol
    X: the catalogue keeps it as photo 1, and the two slides, one of photo 0
    and one of photos 2 and 3, are those of the catalogue without it. *)
Lemma orientation_inconnue_witness :
  Echantillon.fs_mixte "e.txt" = Some Echantillon.fichier_mixte
  ∧ Py.int (Py.readline Echantillon.fichier_mixte).1 = Ok 4
  ∧ (∀ k, (k < Z.to_nat 4)%nat →
       ∃ o c rest m,
         jetons (enregistrement Echantillon.fichier_mixte k) = o :: c :: rest
         ∧ Py.int c = Ok m)
  ∧ lire_input Echantillon.fs_mixte "e.txt" = Ok Echantillon.catalogue_mixte
  ∧ creer_slides Echantillon.catalogue_mixte = Ok Echantillon.diapos_mixte
  ∧ ∀ k o c rest,
      (k < Z.to_nat 4)%nat →
      jetons (enregistrement Echantillon.fichier_mixte k) = o :: c :: rest →
      o ≠ "H" → o ≠ "V" →
      (∃ tags, Echantillon.catalogue_mixte !! k = Some (k, o, tags))
      ∧ creer_slides (delete k Echantillon.catalogue_mixte)
        = Ok Echantillon.diapos_mixte
      ∧ ∀ s, s ∈ Echantillon.diapos_mixte → k ∉ s.1.
Proof.
  assert (Echantillon.fs_mixte "e.txt" = Some Echantillon.fichier_mixte) as Hf
    by reflexivity.
  assert (Py.int (Py.readline Echantillon.fichier_mixte).1 = Ok 4) as Hn
    by (vm_compute; reflexivity).
  assert (∀ k, (k < Z.to_nat 4)%nat →
            ∃ o c rest m,
              jetons (enregistrement Echantillon.fichier_mixte k)
              = o :: c :: rest
              ∧ Py.int c = Ok m) as Hrec.
  { intros [|[|[|[|k]]]] Hk.
    - exists "H", "2", ["cat"; "dog"], 2. split; vm_compute; reflexivity.
    - exists "X", "1", ["sun"], 1. split; vm_compute; reflexivity.
    - exists "V", "1", ["cat"], 1. split; vm_compute; reflexivity.
    - exists "V", "1", ["bird"], 1. split; vm_compute; reflexivity.
    - simpl in Hk. lia. }
  split; [exact Hf|]. split; [exact Hn|]. split; [exact Hrec|].
  destruct (orientation_inconnue Echantillon.fs_mixte "e.txt"
              Echantillon.fichier_mixte 4 Hf Hn Hrec)
    as (photos & slides & Hlire & Hslides & H).
  assert (lire_input Echantillon.fs_mixte "e.txt"
          = Ok Echantillon.catalogue_mixte) as Hlire'
    by (vm_compute; reflexivity).
  assert (photos = Echantillon.catalogue_mixte) as ->
    by (rewrite Hlire' in Hlire; by injection Hlire).
  assert (creer_slides Echantillon.catalogue_mixte
          = Ok Echantillon.diapos_mixte) as Hslides'
    by (vm_compute; reflexivity).
  assert (slides = Echantillon.diapos_mixte) as ->
    by (rewrite Hslides' in Hslides; by injection Hslides).
  split; [exact Hlire'|]. split; [exact Hslides'|]. exact H.
Defined.

(** C10 on a record that declares one tag and holds three tokens. *)
Lemma tags_premiers_jetons_witness :
  jetons "V 1 a b c" = "V" :: "1" :: ["a"; "b"; "c"]
  ∧ Py.int "1" = Ok 1
  ∧ ∃ tags : gset string,
      lire_ligne 1 "V 1 a b c" = Ok (1%nat, "V", tags)
      ∧ (0 ≤ 1 → tags = list_to_set (take (Z.to_nat 1) ["a"; "b"; "c"]))
      ∧ (Py.len ["a"; "b"; "c"] ≤ 1 → tags = list_to_set ["a"; "b"; "c"])
      ∧ (-2 ≤ 1 < 0 → tags = ∅)
      ∧ (1 < -2 →
         tags = list_to_set
                  (take (Z.to_nat (Py.len ["a"; "b"; "c"] + 2 + 1))
                        ["a"; "b"; "c"])).
Proof.
  assert (jetons "V 1 a b c" = "V" :: "1" :: ["a"; "b"; "c"]) as Hj
    by (vm_compute; reflexivity).
  assert (Py.int "1" = Ok 1) as Hc by (vm_compute; reflexivity).
  split; [exact Hj|]. split; [exact Hc|].
  exact (tags_premiers_jetons 1 "V 1 a b c" "V" "1" ["a"; "b"; "c"] 1 Hj Hc).
Defined.

(** * Further properties *)

(** ** Score *)

(** X1: twice the score is at most the size of either tag set; the score
    of a tag set with a superset of it, and with a set disjoint from it,
    is 0. *)
Theorem calculer_score_borne (A B : gset string) :
  2 * calculer_score A B ≤ Py.len_set A
  ∧ 2 * calculer_score A B ≤ Py.len_set B
  ∧ calculer_score A (A ∪ B) = 0
  ∧ calculer_score A (B ∖ A) = 0.
Proof.
  assert (size A = size (A ∩ B) + size (A ∖ B))%nat as HA.
  { rewrite <- size_union by set_solver. f_equal. apply set_eq. intros x.
    rewrite elem_of_union, elem_of_intersection, elem_of_difference.
    destruct (decide (x ∈ B)); tauto. }
  assert (size B = size (A ∩ B) + size (B ∖ A))%nat as HB.
  { rewrite <- size_union by set_solver. f_equal. apply set_eq. intros x.
    rewrite elem_of_union, elem_of_intersection, elem_of_difference.
    destruct (decide (x ∈ A)); tauto. }
  rewrite !calculer_score_min. unfold Py.len_set.
  split; [lia|]. split; [lia|]. split.
  - assert (A ∖ (A ∪ B) = ∅) as -> by set_solver.
    rewrite size_empty. lia.
  - assert (A ∩ (B ∖ A) = ∅) as -> by set_solver.
    rewrite size_empty. lia.
Qed.

(** ** Catalogue *)

Lemma lire_lignes_ids k : ∀ a f acc r,
  lire_lignes (seq a k) f acc = Ok r →
  ∃ ps, r = acc ++ ps ∧ length ps = k
        ∧ ∀ j p, ps !! j = Some p → photo_id p = (a + j)%nat.
Proof.
  induction k as [|k IH]; intros a f acc r; simpl.
  - intros [= <-]. exists []. rewrite app_nil_r. split; [done|]. split; [done|].
    intros j p Hj. by rewrite lookup_nil in Hj.
  - destruct (Py.readline f) as [l f'].
    destruct (lire_ligne a l) as [p|e] eqn:El; simpl; [|done].
    intros Hr. apply IH in Hr as (ps & -> & Hlen & Hps).
    exists (p :: ps). rewrite <- app_assoc. split; [done|]. split; [simpl; lia|].
    intros [|j] q Hq; simpl in Hq.
    + injection Hq as <-. rewrite Nat.add_0_r. by eapply lire_ligne_id.
    + rewrite (Hps j q Hq). lia.
Qed.

(** X2: in a catalogue that was loaded, the id of a photo is its position,
    so the ids are pairwise different, and the number of photos is the
    integer of the header line (none when it is negative). *)
Theorem lire_input_ids (fs : string → option string) (filename : string)
    (photos : list photo) :
  lire_input fs filename = Ok photos →
  (∀ k p, photos !! k = Some p → photo_id p = k)
  ∧ NoDup (photo_id <$> photos)
  ∧ ∃ f n, fs filename = Some f ∧ Py.int (Py.readline f).1 = Ok n
           ∧ length photos = Z.to_nat n.
Proof.
  unfold lire_input. destruct (fs filename) as [f|] eqn:Hf; [|done]. simpl.
  destruct (Py.readline f) as [l f'] eqn:Er.
  destruct (Py.int l) as [n|e] eqn:Hn; [|done]. simpl.
  intros Hr. apply lire_lignes_ids in Hr as (ps & -> & Hlen & Hps).
  simpl. assert (∀ k p, ps !! k = Some p → photo_id p = k) as Hid.
  { intros k p Hk. by rewrite (Hps k p Hk). }
  split; [exact Hid|]. split.
  - apply NoDup_alt. intros i j x Hi Hj.
    rewrite list_lookup_fmap in Hi, Hj.
    destruct (ps !! i) as [p|] eqn:Ei; [|done].
    destruct (ps !! j) as [q|] eqn:Ej; [|done].
    simpl in Hi, Hj. injection Hi as Hi. injection Hj as Hj.
    rewrite <- (Hid i p Ei), <- (Hid j q Ej). congruence.
  - exists f, n. rewrite Er. done.
Qed.

Lemma lire_lignes_ext k : ∀ a f f' acc,
  (∀ j, (j < k)%nat → ligne f j = ligne f' j) →
  lire_lignes (seq a k) f acc = lire_lignes (seq a k) f' acc.
Proof.
  induction k as [|k IH]; intros a f f' acc Hl; simpl; [done|].
  pose proof (Hl 0%nat ltac:(lia)) as H0. unfold ligne in H0. simpl in H0.
  destruct (Py.readline f) as [l g] eqn:Er, (Py.readline f') as [l' g'] eqn:Er'.
  simpl in H0. subst l'.
  destruct (lire_ligne a l) as [p|e]; simpl; [|done].
  apply IH. intros j Hj. specialize (Hl (S j) ltac:(lia)).
  unfold ligne in *. simpl in Hl. by rewrite Er, Er' in Hl.
Qed.

(** X3: on files of ASCII text, loading reads the header line and the n
    records that follow, and nothing else: two such files with the same
    header line and the same first n records give the same result, whatever
    ASCII text comes after.  (A byte that is not ASCII is outside the
    statement: the text layer decodes by blocks and may raise on it even
    when it lies after the last record.) *)
Theorem lire_input_prefixe (fs fs' : string → option string)
    (filename filename' f f' : string) (n : Z) :
  fs filename = Some f → fs' filename' = Some f' →
  Py.isascii f = true → Py.isascii f' = true →
  (Py.readline f).1 = (Py.readline f').1 →
  Py.int (Py.readline f).1 = Ok n →
  (∀ k, (k < Z.to_nat n)%nat → enregistrement f k = enregistrement f' k) →
  lire_input fs filename = lire_input fs' filename'.
Proof.
  intros Hf Hf' _ _ Hh Hn Hrec.
  rewrite (lire_input_eq fs filename f n Hf Hn).
  rewrite (lire_input_eq fs' filename' f' n Hf') by (by rewrite <- Hh).
  by apply lire_lignes_ext.
Qed.

(** X4: a record that is read gives a photo with the id of the loop, the
    first token of the line as orientation, and tags taken among the tokens
    that follow the count: never the orientation or count tokens, whatever
    the declared count. *)
Theorem lire_ligne_tags (i : nat) (l : string) (p : photo) :
  lire_ligne i l = Ok p →
  photo_id p = i
  ∧ ∃ o c rest num_tags,
      jetons l = o :: c :: rest ∧ Py.int c = Ok num_tags
      ∧ photo_orientation p = o
      ∧ photo_tags p ⊆ list_to_set rest
      ∧ (size (photo_tags p) ≤ length rest)%nat.
Proof.
  intros Hp. split; [by eapply lire_ligne_id|].
  rewrite lire_ligne_cas in Hp.
  destruct (jetons l) as [|o [|c rest]]; try done.
  destruct (Py.int c) as [m|e] eqn:Hc; [|done]. injection Hp as <-.
  exists o, c, rest, m. split; [done|]. split; [done|]. split; [done|].
  unfold photo_tags. cbn [snd]. rewrite slice_jetons.
  assert (∀ k, (list_to_set (take k rest) : gset string) ⊆ list_to_set rest) as Hsub.
  { intros k x. rewrite !elem_of_list_to_set. apply subseteq_take. }
  assert (∀ l' : list string, (size (list_to_set l' : gset string) ≤ length l')%nat)
    as Hsize.
  { induction l' as [|x l' IH].
    - rewrite list_to_set_nil, size_empty. done.
    - rewrite list_to_set_cons, size_union_alt, size_singleton.
      pose proof (subseteq_size (list_to_set l' ∖ {[x]}) (list_to_set l' : gset string)
                    ltac:(set_solver)). simpl. lia. }
  repeat case_decide.
  - split; [apply Hsub|]. etrans; [apply Hsize|]. rewrite length_take. lia.
  - split; [set_solver|]. rewrite list_to_set_nil, size_empty. lia.
  - split; [apply Hsub|]. etrans; [apply Hsize|]. rewrite length_take. lia.
Qed.

(** ** Slides and catalogue *)

(** X5: every generated slide is the slide of one horizontal photo of the
    catalogue or the paired slide of two vertical photos of the catalogue:
    no slide shows a photo id that is not in the catalogue, and none mixes
    orientations. *)
Theorem creer_slides_origine (photos : list photo) :
  ∃ slides,
    creer_slides photos = Ok slides
    ∧ ∀ s, s ∈ slides →
        (∃ p, p ∈ photos ∧ photo_orientation p = "H"
              ∧ s = ([photo_id p], photo_tags p))
        ∨ (∃ p q, p ∈ photos ∧ q ∈ photos
                  ∧ photo_orientation p = "V" ∧ photo_orientation q = "V"
                  ∧ s = ([photo_id p; photo_id q],
                         photo_tags p ∪ photo_tags q)).
Proof.
  eexists. split; [apply creer_slides_eq|].
  intros s Hs. apply elem_of_app in Hs as [Hs|Hs].
  - left. apply list_elem_of_fmap in Hs as (p & -> & Hp).
    apply list_elem_of_filter in Hp as [Ho Hp]. eauto.
  - right. apply list_elem_of_omap in Hs as ([i j] & _ & Hs).
    rewrite !list_lookup_fmap in Hs.
    destruct (filter _ photos !! i) as [p|] eqn:Ep; [|done].
    destruct (filter _ photos !! j) as [q|] eqn:Eq; [|done].
    injection Hs as <-.
    apply list_elem_of_lookup_2 in Ep, Eq.
    apply list_elem_of_filter in Ep as [? ?], Eq as [? ?].
    exists p, q. done.
Qed.

(** ** Extraction without values *)

(** X6: on a non-empty list of slides, the extractor raises at its first
    read: the attribute error of the variable when the solver has no
    solution to report, and a key error when the dictionary lacks the key
    (0, 0). *)
Theorem get_solution_erreurs (slides : list slide) (e : exn) (X : Var → result Q)
    (slide_vars : gmap (nat * nat) Var) :
  slides ≠ [] →
  get_solution (construire_modele slides).2 (λ _, Raise e) slides = Raise e
  ∧ (slide_vars !! (0%nat, 0%nat) = None →
     get_solution slide_vars X slides = Raise KeyError).
Proof.
  intros Hne. destruct slides as [|s slides]; [done|].
  unfold get_solution. cbn [length seq parcourir chercher]. split.
  - match goal with
    | |- context [of_option KeyError ?o] =>
        replace o with (Some ((0%nat, 0%nat) : Var))
          by (symmetry; apply slide_vars_lookup; simpl; lia)
    end.
    done.
  - intros ->. done.
Qed.

(** ** Output *)

Lemma append_assoc (s1 s2 s3 : string) : (s1 +:+ s2) +:+ s3 = s1 +:+ s2 +:+ s3.
Proof.
  induction s1 as [|a s1 IH]; [done|].
  change (String a ((s1 +:+ s2) +:+ s3) = String a (s1 +:+ s2 +:+ s3)).
  by rewrite IH.
Qed.

Lemma append_nil_r (s : string) : s +:+ EmptyString = s.
Proof.
  induction s as [|a s IH]; [done|].
  change (String a (s +:+ EmptyString) = String a s). by rewrite IH.
Qed.

(** Rewrite, with a hypothesis [H : m !! k = v], the lookups of [k] in [m]
    that the goal writes at a convertible type. *)
Ltac reecrire_lookup H :=
  repeat match goal with
  | |- context [@lookup ?K ?A ?M ?I ?k ?m] =>
      match type of H with
      | @eq _ (@lookup _ _ _ _ k m) ?v =>
          assert (@lookup K A M I k m = v) as -> by exact H
      end
  end.

Lemma photos_de_lookup (slides : list slide) (i : nat) (s : slide) :
  slides !! i = Some s → photos_de slides i = s.1.
Proof. intros H. unfold photos_de. reecrire_lookup H. done. Qed.

(** One step of the writing loop. *)
Lemma ecrire_lignes_cons (slides : list slide) (idx : nat) (rest : list nat)
    (out : string) :
  ecrire_lignes (idx :: rest) slides out =
    match slides !! idx with
    | None => (out, Some IndexError)
    | Some s =>
        ecrire_lignes rest slides
          (out +:+ Py.join " " (Py.str <$> s.1) +:+ Py.nl)
    end.
Proof.
  cbn [ecrire_lignes].
  match goal with
  | |- match ?o with _ => _ end = _ => destruct o as [[photo_ids tags]|] eqn:Hs
  end.
  - done.
  - done.
Qed.

Lemma ecrire_lignes_ok (slides : list slide) (sr : list nat) : ∀ out,
  Forall (λ i, (i < length slides)%nat) sr →
  ecrire_lignes sr slides out
  = (out +:+ lignes_ecrites (photos_de slides <$> sr), None).
Proof.
  induction sr as [|idx sr IH]; intros out Hin.
  - simpl. by rewrite append_nil_r.
  - apply Forall_cons in Hin as [Hidx Hin].
    rewrite (ecrire_lignes_cons slides idx sr out).
    destruct (lookup_lt_is_Some_2 slides idx Hidx) as [s Hs].
    reecrire_lookup Hs. rewrite IH by done.
    rewrite fmap_cons, (photos_de_lookup _ _ _ Hs). simpl.
    by rewrite !append_assoc.
Qed.

Lemma ecrire_lignes_hors_bornes (slides : list slide) (pre : list nat)
    (idx : nat) (post : list nat) : ∀ out,
  Forall (λ i, (i < length slides)%nat) pre → (length slides ≤ idx)%nat →
  ecrire_lignes (pre ++ idx :: post) slides out
  = (out +:+ lignes_ecrites (photos_de slides <$> pre), Some IndexError).
Proof.
  induction pre as [|i pre IH]; intros out Hin Hidx.
  - rewrite app_nil_l, (ecrire_lignes_cons slides idx post out).
    pose proof (lookup_ge_None_2 slides idx Hidx) as Hs.
    reecrire_lookup Hs. simpl. by rewrite append_nil_r.
  - apply Forall_cons in Hin as [Hi Hin].
    rewrite <- app_comm_cons, (ecrire_lignes_cons slides i (pre ++ idx :: post) out).
    destruct (lookup_lt_is_Some_2 slides i Hi) as [s Hs].
    reecrire_lookup Hs. rewrite IH by done.
    rewrite fmap_cons, (photos_de_lookup _ _ _ Hs). simpl.
    by rewrite !append_assoc.
Qed.

Lemma ecrire_solution_ok (slides_retenues : list nat) (slides : list slide) :
  Forall (λ i, (i < length slides)%nat) slides_retenues →
  ecrire_solution slides_retenues slides
  = (Py.str (length slides_retenues) +:+ Py.nl
     +:+ lignes_ecrites (photos_de slides <$> slides_retenues), None).
Proof.
  intros Hin. unfold ecrire_solution.
  rewrite ecrire_lignes_ok by done. by rewrite append_assoc.
Qed.

(** X7: when every retained index is an index of the slide list, the
    writer raises nothing and writes the number of retained slides on the
    first line, then one line per retained slide, in order, with the photo
    ids of the slide separated by one space. *)
Theorem ecrire_solution_format (slides_retenues : list nat) (slides : list slide) :
  Forall (λ i, (i < length slides)%nat) slides_retenues →
  ecrire_solution slides_retenues slides
  = (Py.str (length slides_retenues) +:+ Py.nl
     +:+ lignes_ecrites (photos_de slides <$> slides_retenues), None).
Proof.
  intros Hin. unfold ecrire_solution.
  rewrite ecrire_lignes_ok by done. by rewrite append_assoc.
Qed.

(** X8: at the first retained index that is not an index of the slide list
    the writer raises an index error; the file then holds the count line,
    which counts all the retained slides, and only the lines of the slides
    before that index. *)
Theorem ecrire_solution_hors_bornes (pre : list nat) (idx : nat)
    (post : list nat) (slides : list slide) :
  Forall (λ i, (i < length slides)%nat) pre → (length slides ≤ idx)%nat →
  ecrire_solution (pre ++ idx :: post) slides
  = (Py.str (length (pre ++ idx :: post)) +:+ Py.nl
     +:+ lignes_ecrites (photos_de slides <$> pre), Some IndexError).
Proof.
  intros Hin Hidx. unfold ecrire_solution.
  rewrite ecrire_lignes_hors_bornes by done. by rewrite append_assoc.
Qed.

(** ** A whole run *)

Lemma get_solution_bornes (slides : list slide) (X : Var → Q) :
  ∃ sol,
    get_solution (construire_modele slides).2 (λ v, Ok (X v)) slides = Ok sol
    ∧ Forall (λ i, (i < length slides)%nat) sol.
Proof.
  destruct (get_solution_ok slides X) as (sol & Hsol & _ & Hpref & _).
  exists sol. split; [done|]. apply Forall_lookup. intros p i Hp.
  destruct (Hpref p (lookup_lt_Some _ _ _ Hp)) as (i' & Hi' & Hlt & _).
  congruence.
Qed.

Lemma get_solution_sans_valeurs (slides : list slide) (e : exn) :
  slides ≠ [] →
  get_solution (construire_modele slides).2 (λ _, Raise e) slides = Raise e.
Proof.
  intros Hne. destruct slides as [|s slides]; [done|].
  unfold get_solution. cbn [length seq parcourir chercher].
  match goal with
  | |- context [of_option KeyError ?o] =>
      replace o with (Some ((0%nat, 0%nat) : Var))
        by (symmetry; apply slide_vars_lookup; simpl; lia)
  end.
  done.
Qed.

(** X9: a run with one argument.  If loading raises, the run ends with that
    exception before the solver is called and nothing is written.
    Otherwise slide generation succeeds and the solver is called once.  If
    it reports values, the run completes and writes to slideshow.sol the
    number of extracted slides and one line of photo ids per extracted
    slide.  If it reports none, the run ends with an attribute error and
    writes nothing, except when there is no slide at all: then it completes
    and writes the single line 0. *)
Theorem main_deroulement (fs : string → option string)
    (optimize : Model → option (Var → Q)) (prog filename : string) :
  let run := main fs optimize [prog; filename] in
  match lire_input fs filename with
  | Raise e => run = ([], Uncaught e)
  | Ok photos =>
      ∃ slides,
        creer_slides photos = Ok slides
        ∧ let model := set_TimeLimit 90 (construire_modele slides).1 in
          match optimize model with
          | Some X =>
              ∃ sol,
                get_solution (construire_modele slides).2 (λ v, Ok (X v)) slides
                = Ok sol
                ∧ run = ([Optimize model;
                          WriteFile "slideshow.sol"
                            (Py.str (length sol) +:+ Py.nl
                             +:+ lignes_ecrites (photos_de slides <$> sol))],
                         Done)
          | None =>
              if decide (slides = []) then
                run = ([Optimize model;
                        WriteFile "slideshow.sol" ("0" +:+ Py.nl)], Done)
              else run = ([Optimize model], Uncaught AttributeError)
          end
  end.
Proof.
  intros run. subst run. unfold main. cbn [length]. rewrite decide_False by lia.
  change (default EmptyString ([prog; filename] !! 1%nat)) with filename.
  destruct (lire_input fs filename) as [photos|e]; [|done].
  eexists. split; [apply creer_slides_eq|]. rewrite creer_slides_eq.
  match goal with |- context [construire_modele ?sl] => set (slides := sl) end.
  destruct (construire_modele slides) as [m sv] eqn:Em. cbn [fst snd].
  destruct (optimize (set_TimeLimit 90 m)) as [X|].
  - destruct (get_solution_bornes slides X) as (sol & Hsol & Hin).
    rewrite Em in Hsol. cbn [snd] in Hsol. exists sol. split; [done|].
    rewrite Hsol, ecrire_solution_ok by done. done.
  - case_decide as Hvide.
    + rewrite Hvide. done.
    + pose proof (get_solution_sans_valeurs slides AttributeError Hvide) as Hs.
      rewrite Em in Hs. cbn [snd] in Hs. by rewrite Hs.
Qed.

(** ** The dictionary of uses, exactly *)

Section dictionnaire.

Variable x : nat → nat → Var.
Variable n : nat.

Implicit Types (d : list (nat * list Var)) (l : list (nat * slide)).

Lemma cles_etendre k vs d :
  (etendre k vs d).*1 = if decide (k ∈ d.*1) then d.*1 else d.*1 ++ [k].
Proof.
  induction d as [|[k0 l0] d IH].
  - done.
  - cbn [etendre fmap list_fmap fst].
    destruct (decide (k0 = k)) as [->|Hne]; cbn [fmap list_fmap fst].
    + by rewrite decide_True by left.
    + rewrite IH. destruct (decide (k ∈ d.*1)) as [Hin|Hnin].
      * by rewrite decide_True by (by right).
      * rewrite decide_False; [done|].
        intros [?|?]%elem_of_cons; congruence.
Qed.

Lemma cles_etendre_NoDup k vs d : NoDup d.*1 → NoDup (etendre k vs d).*1.
Proof.
  intros Hnd. rewrite cles_etendre. case_decide; [done|].
  apply NoDup_app. split; [done|]. split; [|apply NoDup_singleton].
  intros k' Hk' ->%list_elem_of_singleton. done.
Qed.

Lemma cles_etendre_elem k vs d k' :
  k' ∈ (etendre k vs d).*1 ↔ k' ∈ d.*1 ∨ k' = k.
Proof.
  rewrite cles_etendre. case_decide.
  - split; [auto|]. by intros [?| ->].
  - rewrite elem_of_app, list_elem_of_singleton. done.
Qed.

Lemma filter_absent (id : nat) (ids : list nat) :
  id ∉ ids → filter (λ k, k = id) ids = [].
Proof.
  induction ids as [|k ids IH]; intros Hnin; [done|].
  rewrite filter_cons_False by (intros ->; apply Hnin; left).
  apply IH. intros ?; apply Hnin; by right.
Qed.

Lemma ajouter_slide_assoc vs photo_ids : ∀ d id,
  assoc (ajouter_slide vs d photo_ids) id =
    if decide (id ∈ photo_ids)
    then Some (default [] (assoc d id)
               ++ (filter (λ k, k = id) photo_ids ≫= λ _, vs))
    else assoc d id.
Proof.
  unfold ajouter_slide.
  induction photo_ids as [|k ids IH]; intros d id.
  - done.
  - cbn [foldl]. rewrite IH, assoc_etendre. rewrite filter_cons.
    destruct (decide (k = id)) as [->|Hne].
    + rewrite (decide_True (P := id ∈ id :: ids)) by left.
      rewrite bind_cons. simpl.
      destruct (decide (id ∈ ids)) as [Hin|Hnin]; [by rewrite <- app_assoc|].
      by rewrite (filter_absent id ids Hnin), app_nil_r.
    + destruct (decide (id ∈ ids)) as [Hin|Hnin].
      * by rewrite (decide_True (P := id ∈ k :: ids)) by (by right).
      * rewrite (decide_False (P := id ∈ k :: ids)); [done|].
        intros [?|?]%elem_of_cons; congruence.
Qed.

Lemma ajouter_slide_cles vs photo_ids : ∀ d,
  (NoDup d.*1 → NoDup (ajouter_slide vs d photo_ids).*1)
  ∧ ∀ k, k ∈ (ajouter_slide vs d photo_ids).*1 ↔ k ∈ d.*1 ∨ k ∈ photo_ids.
Proof.
  unfold ajouter_slide.
  induction photo_ids as [|k0 ids IH]; intros d.
  - split; [done|]. intros k. cbn [foldl]. rewrite elem_of_nil. tauto.
  - cbn [foldl]. destruct (IH (etendre k0 vs d)) as [IH1 IH2]. split.
    + intros Hnd. by apply IH1, cles_etendre_NoDup.
    + intros k. rewrite IH2, cles_etendre_elem, elem_of_cons. tauto.
Qed.

Lemma usages_vide id l :
  id ∉ l ≫= (λ p, p.2.1) → usages x n id l = [].
Proof.
  unfold usages. induction l as [|[idx [ids t]] l IH]; [done|].
  rewrite !bind_cons. cbn [fst snd]. intros Hnin.
  rewrite IH by (intros ?; apply Hnin, elem_of_app; by right).
  rewrite app_nil_r.
  rewrite filter_absent; [done|].
  intros ?; apply Hnin, elem_of_app; by left.
Qed.

Lemma remplir_assoc l : ∀ d id,
  assoc (remplir x n d l) id =
    if decide (id ∈ l ≫= (λ p, p.2.1))
    then Some (default [] (assoc d id) ++ usages x n id l)
    else assoc d id.
Proof.
  induction l as [|[idx [ids t]] l IH]; intros d id.
  - done.
  - cbn [remplir foldl]. fold (ajouter_slide ((λ pos, x idx pos) <$> seq 0 n) d ids).
    fold (remplir x n (ajouter_slide ((λ pos, x idx pos) <$> seq 0 n) d ids) l).
    rewrite IH, ajouter_slide_assoc, bind_cons. cbn [fst snd].
    unfold usages at 2. rewrite bind_cons. fold (usages x n id l).
    destruct (decide (id ∈ ids)) as [Hin|Hnin];
      destruct (decide (id ∈ l ≫= (λ p, p.2.1))) as [Hin'|Hnin'].
    + rewrite decide_True by (apply elem_of_app; by left).
      simpl. by rewrite <- app_assoc.
    + rewrite decide_True by (apply elem_of_app; by left).
      by rewrite (usages_vide id l Hnin'), app_nil_r.
    + rewrite decide_True by (apply elem_of_app; by right).
      by rewrite (filter_absent id ids Hnin).
    + rewrite decide_False; [done|].
      intros [?|?]%elem_of_app; done.
Qed.

Lemma remplir_cles l : ∀ d,
  (NoDup d.*1 → NoDup (remplir x n d l).*1)
  ∧ ∀ k, k ∈ (remplir x n d l).*1 ↔ k ∈ d.*1 ∨ k ∈ l ≫= (λ p, p.2.1).
Proof.
  induction l as [|[idx [ids t]] l IH]; intros d.
  - split; [done|]. intros k. cbn [remplir foldl mbind list_bind]. rewrite elem_of_nil. tauto.
  - cbn [remplir foldl]. fold (ajouter_slide ((λ pos, x idx pos) <$> seq 0 n) d ids).
    fold (remplir x n (ajouter_slide ((λ pos, x idx pos) <$> seq 0 n) d ids) l).
    destruct (IH (ajouter_slide ((λ pos, x idx pos) <$> seq 0 n) d ids)) as [IH1 IH2].
    destruct (ajouter_slide_cles ((λ pos, x idx pos) <$> seq 0 n) ids d) as [A1 A2].
    split; [auto|].
    intros k. rewrite IH2, A2, bind_cons, elem_of_app. cbn [fst snd]. tauto.
Qed.

Lemma elem_of_premieres (ks : list nat) (k : nat) : k ∈ premieres ks ↔ k ∈ ks.
Proof.
  induction ks as [|a ks IH]; [done|].
  cbn [premieres]. rewrite !elem_of_cons, list_elem_of_filter, IH.
  destruct (decide (k = a)); naive_solver.
Qed.

Lemma premieres_app (ks ks' : list nat) :
  premieres (ks ++ ks') = premieres ks ++ filter (λ b, b ∉ ks) (premieres ks').
Proof.
  induction ks as [|a ks IH].
  - cbn [app premieres]. symmetry. induction (premieres ks') as [|b l IHl]; [done|].
    rewrite filter_cons_True by apply not_elem_of_nil. by rewrite IHl.
  - cbn [app premieres]. rewrite IH, filter_app, list_filter_filter.
    do 2 f_equal. apply list_filter_iff. intros b.
    rewrite not_elem_of_cons. tauto.
Qed.

(** The keys of the dictionary after the loop of lines 66-69: the keys it
    had, then the new ids in order of first appearance. *)
Lemma ajouter_slide_ordre vs photo_ids : ∀ d,
  (ajouter_slide vs d photo_ids).*1
  = d.*1 ++ filter (λ b, b ∉ d.*1) (premieres photo_ids).
Proof.
  unfold ajouter_slide.
  induction photo_ids as [|a ids IH]; intros d.
  - cbn [foldl premieres]. by rewrite filter_nil, app_nil_r.
  - cbn [foldl premieres]. rewrite IH, cles_etendre.
    destruct (decide (a ∈ d.*1)) as [Hin|Hnin].
    + rewrite filter_cons_False by (intros H; by apply H).
      rewrite list_filter_filter. f_equal. apply list_filter_iff.
      intros b. split; [|tauto]. intros Hb. split; [done|]. by intros ->.
    + rewrite filter_cons_True by done.
      rewrite <- app_assoc. cbn [app]. do 2 f_equal.
      rewrite list_filter_filter. apply list_filter_iff. intros b.
      rewrite not_elem_of_app, list_elem_of_singleton. tauto.
Qed.

Lemma remplir_ordre l : ∀ d,
  (remplir x n d l).*1
  = d.*1 ++ filter (λ b, b ∉ d.*1) (premieres (l ≫= (λ p, p.2.1))).
Proof.
  induction l as [|[idx [ids t]] l IH]; intros d.
  - cbn [remplir foldl mbind list_bind premieres]. by rewrite filter_nil, app_nil_r.
  - cbn [remplir foldl]. fold (ajouter_slide ((λ pos, x idx pos) <$> seq 0 n) d ids).
    fold (remplir x n (ajouter_slide ((λ pos, x idx pos) <$> seq 0 n) d ids) l).
    rewrite IH, ajouter_slide_ordre, bind_cons. cbn [fst snd].
    rewrite premieres_app, filter_app, <- app_assoc. do 2 f_equal.
    rewrite list_filter_filter. apply list_filter_iff. intros b.
    rewrite not_elem_of_app, list_elem_of_filter, elem_of_premieres. tauto.
Qed.

End dictionnaire.

(** ** The constraints of the model, exactly *)

Lemma ids_des_slides_numerotees (slides : list slide) : ∀ g : nat → nat,
  imap (λ slide_idx s, (g slide_idx, s)) slides ≫= (λ p, p.2.1) = slides ≫= fst.
Proof.
  induction slides as [|s slides IH]; intros g; [done|].
  rewrite imap_cons, !bind_cons. cbn [fst snd]. f_equal.
  exact (IH (g ∘ S)).
Qed.

Lemma assoc_NoDup (d : list (nat * list Var)) (k : nat) (us : list Var) :
  NoDup d.*1 → (k, us) ∈ d → assoc d k = Some us.
Proof.
  induction d as [|[k0 l0] d IH]; intros Hnd Hin; [by apply elem_of_nil in Hin|].
  cbn [fmap list_fmap fst] in Hnd. apply NoDup_cons in Hnd as [Hk0 Hnd].
  simpl. apply elem_of_cons in Hin as [[= -> ->]|Hin].
  - by rewrite decide_True.
  - rewrite decide_False; [by apply IH|].
    intros ->. apply Hk0. apply list_elem_of_fmap. by exists (k, us).
Qed.

Lemma ids_enumeres (slides : list slide) (photo_id : nat) :
  photo_id ∈ imap (λ slide_idx s, (slide_idx, s)) slides ≫= (λ p, p.2.1)
  ↔ ∃ i, photo_id ∈ photos_de slides i.
Proof.
  rewrite list_elem_of_bind. split.
  - intros ([i s] & Hid & Hin). apply list_elem_of_lookup in Hin as [j Hj].
    apply list_lookup_imap_Some in Hj as (s' & Hs & [= -> ->]).
    exists j. by rewrite (photos_de_lookup _ _ _ Hs).
  - intros (i & Hid). unfold photos_de in Hid.
    destruct (slides !! i) as [s|] eqn:Hs; [|by apply elem_of_nil in Hid].
    exists (i, s). split; [done|].
    apply list_elem_of_lookup. exists i. apply list_lookup_imap_Some. eauto.
Qed.

Lemma usages_ext (x y : nat → nat → Var) (n : nat) (photo_id : nat)
    (l : list (nat * slide)) :
  (∀ i s pos, (i, s) ∈ l → (pos < n)%nat → x i pos = y i pos) →
  usages x n photo_id l = usages y n photo_id l.
Proof.
  intros Hxy. unfold usages. apply Forall_bind_ext, Forall_forall.
  intros [i [ids t]] Hin. apply Forall_bind_ext, Forall_forall. intros _ _.
  apply list_fmap_ext. intros k pos Hpos%lookup_seq. apply (Hxy i (ids, t)); [done|lia].
Qed.

(** The list stored for a photo id holds the variables of the slides that
    show it, in the order of the slides. *)
Lemma entree_usages (slides : list slide) (photo_id : nat) (us : list Var) :
  let n := length slides in
  (photo_id, us)
    ∈ utilisations_photo (λ i pos, (creer_variables n).2 !!! (i, pos)) slides →
  us = usages (λ i pos, (i, pos)) n photo_id
         (imap (λ slide_idx s, (slide_idx, s)) slides).
Proof.
  intros n Hin.
  set (x := λ i pos : nat, (creer_variables n).2 !!! (i, pos)) in *.
  set (l := imap (λ slide_idx s, (slide_idx, s)) slides).
  change (utilisations_photo x slides) with (remplir x n [] l) in Hin.
  destruct (remplir_cles x n l []) as [Hnd _]. specialize (Hnd (NoDup_nil_2)).
  pose proof (assoc_NoDup _ _ _ Hnd Hin) as Ha.
  rewrite remplir_assoc in Ha. case_decide as Hocc; [|done].
  simpl in Ha. injection Ha as <-.
  apply usages_ext. intros i s pos Hi Hpos. apply creer_variables_total; [|done].
  apply list_elem_of_lookup in Hi as [j Hj].
  apply list_lookup_imap_Some in Hj as (s' & Hs & [= -> ->]).
  by apply lookup_lt_Some in Hs.
Qed.

(** X10: the constraints of the model, in the order in which they are
    added: for each position, at most one slide; for each slide, at most
    one position; for each photo id shown by a slide, once and in order of
    first appearance in the slides read in order, at most one use, over the
    variables of every slide that shows the photo at every position (once
    per occurrence of the id in the slide); last, at least one slide at
    position 0. *)
Theorem construire_modele_contraintes (slides : list slide) :
  let n := length slides in
  let ids := premieres (slides ≫= fst) in
  NoDup ids
  ∧ (∀ photo_id, photo_id ∈ ids ↔ ∃ i, photo_id ∈ photos_de slides i)
  ∧ m_constrs (construire_modele slides).1 =
      ((λ pos, au_plus_un ((λ i, (i, pos)) <$> seq 0 n) None) <$> seq 0 n)
      ++ ((λ i, au_plus_un ((λ pos, (i, pos)) <$> seq 0 n) None) <$> seq 0 n)
      ++ ((λ photo_id,
             au_plus_un
               (usages (λ i pos, (i, pos)) n photo_id
                  (imap (λ slide_idx s, (slide_idx, s)) slides))
               (Some (nom_contrainte photo_id))) <$> ids)
      ++ [au_moins_un ((λ i, (i, 0%nat)) <$> seq 0 n)].
Proof.
  intros n ids.
  set (x := λ i pos : nat, (creer_variables n).2 !!! (i, pos)).
  set (l := imap (λ slide_idx s, (slide_idx, s)) slides).
  assert (utilisations_photo x slides = remplir x n [] l) as Hd by done.
  destruct (remplir_cles x n l []) as [Hnd Hcles].
  specialize (Hnd (NoDup_nil_2)).
  assert (∀ i pos, (i < n)%nat → (pos < n)%nat → x i pos = (i, pos)) as Hx
    by apply creer_variables_total.
  assert ((remplir x n [] l).*1 = ids) as Hids.
  { assert (l ≫= (λ p, p.2.1) = slides ≫= fst) as Hnum
      by exact (ids_des_slides_numerotees slides id).
    rewrite remplir_ordre, Hnum. cbn [fmap list_fmap app].
    fold ids. induction ids as [|b bs IHb]; [done|].
    rewrite filter_cons_True by apply not_elem_of_nil. by rewrite IHb. }
  rewrite <- Hids. split; [exact Hnd|]. split.
  - intros photo_id. rewrite Hcles, <- ids_enumeres. fold l.
    cbn [fmap list_fmap]. rewrite elem_of_nil. tauto.
  - rewrite construire_modele_eq. cbn [fst m_constrs]. fold n x. rewrite Hd.
    f_equal; [|f_equal; [|f_equal]].
    + apply list_fmap_ext. intros k pos Hpos%lookup_seq. f_equal.
      apply list_fmap_ext. intros k' i Hi%lookup_seq. apply Hx; lia.
    + apply list_fmap_ext. intros k i Hi%lookup_seq. f_equal.
      apply list_fmap_ext. intros k' pos Hpos%lookup_seq. apply Hx; lia.
    + rewrite <- list_fmap_compose. apply list_fmap_ext.
      intros k [photo_id us] Hk. cbn. f_equal.
      apply list_elem_of_lookup_2 in Hk. rewrite <- Hd in Hk.
      by apply entree_usages.
    + f_equal. f_equal. apply list_fmap_ext. intros k i Hi%lookup_seq.
      apply Hx; lia.
Qed.

(** X11: the dictionary of variables has a variable under the key (i, pos)
    exactly when i and pos are both below the number n of slides, and the
    model declares these n * n variables, all binary, slide by slide and
    position by position, without a time limit of its own. *)
Theorem construire_modele_variables (slides : list slide) :
  let n := length slides in
  (∀ i pos v,
     (construire_modele slides).2 !! (i, pos) = Some v
     ↔ (i < n)%nat ∧ (pos < n)%nat ∧ v = (i, pos))
  ∧ m_vars (construire_modele slides).1 = (seq 0 n ≫= λ i, decl i <$> seq 0 n)
  ∧ length (m_vars (construire_modele slides).1) = (n * n)%nat
  ∧ TimeLimit (construire_modele slides).1 = None.
Proof.
  intros n. rewrite construire_modele_eq. cbn [fst snd m_vars TimeLimit]. fold n.
  split; [|split; [|split]].
  - intros i pos v. rewrite creer_variables_lookup.
    case_decide as H; split.
    + intros [= <-]. tauto.
    + intros (_ & _ & ->). done.
    + done.
    + intros (? & ? & _). tauto.
  - apply creer_variables_decls.
  - rewrite creer_variables_decls.
    assert (∀ l : list nat, length (l ≫= λ i, decl i <$> seq 0 n)
                            = (length l * n)%nat) as Hlen.
    { induction l as [|i l IH]; [done|].
      rewrite bind_cons, length_app, length_fmap, length_seq, IH. simpl. lia. }
    by rewrite Hlen, length_seq.
  - done.
Qed.

(** ** Sequences and assignments *)

Lemma retenue_affectation (s : list nat) (i pos : nat) :
  retenue (affectation s (i, pos)) = true ↔ s !! pos = Some i.
Proof. unfold affectation. cbn [fst snd]. case_decide as H; split; done. Qed.

(** X12: a sequence of at most n indices of slides, written as the
    assignment that sets to 1 the variable of its p-th slide at position
    p and every other variable to 0, is read back unchanged by the
    extractor. *)
Theorem get_solution_affectation (slides : list slide) (s : list nat) :
  Forall (λ i, (i < length slides)%nat) s → (length s ≤ length slides)%nat →
  get_solution (construire_modele slides).2 (λ v, Ok (affectation s v)) slides
  = Ok s.
Proof.
  intros Hin Hlen.
  destruct (get_solution_ok slides (affectation s))
    as (sol & -> & _ & Hpref & Hstop).
  f_equal.
  assert (∀ p i, sol !! p = Some i → s !! p = Some i) as Hsub.
  { intros p i Hp.
    destruct (Hpref p (lookup_lt_Some _ _ _ Hp)) as (i' & Hi' & _ & Hr & _).
    rewrite Hp in Hi'. injection Hi' as <-. by apply retenue_affectation. }
  assert (length sol = length s) as Hl.
  { destruct (decide (length sol < length s)%nat) as [Hlt|Hge].
    - destruct (lookup_lt_is_Some_2 s (length sol) Hlt) as [i Hi].
      assert (i < length slides)%nat as Hi'
        by (eapply Forall_lookup_1 in Hin; eauto).
      specialize (Hstop ltac:(lia) i Hi').
      apply retenue_affectation in Hi. congruence.
    - destruct (decide (length s < length sol)%nat) as [Hlt|]; [|lia].
      destruct (lookup_lt_is_Some_2 sol (length s) Hlt) as [i Hi].
      apply Hsub, lookup_lt_Some in Hi. lia. }
  apply list_eq. intros p. destruct (sol !! p) as [i|] eqn:Hp.
  - symmetry. by apply Hsub.
  - symmetry. apply lookup_ge_None. apply lookup_ge_None in Hp. lia.
Qed.

(** *** Counting the variables set to 1 *)

Section comptes.

Variable s : list nat.

Lemma compte_app e1 e2 : compte s (e1 ++ e2) = (compte s e1 + compte s e2)%nat.
Proof. unfold compte. by rewrite filter_app, length_app. Qed.

Lemma compte_cons v e :
  compte s (v :: e)
  = ((if decide (s !! v.2 = Some v.1) then 1 else 0) + compte s e)%nat.
Proof. unfold compte. rewrite filter_cons. by case_decide. Qed.

Lemma valeur_compte e :
  (valeur (affectation s) e == inject_Z (Z.of_nat (compte s e)))%Q.
Proof.
  induction e as [|v e IH]; [reflexivity|].
  cbn [valeur foldr]. fold (valeur (affectation s) e).
  rewrite IH, compte_cons. unfold affectation.
  case_decide; rewrite Nat2Z.inj_add, inject_Z_plus; reflexivity.
Qed.

Lemma compte_pos e v :
  v ∈ e → s !! v.2 = Some v.1 → (0 < compte s e)%nat.
Proof.
  intros Hv Hsel. unfold compte.
  assert (v ∈ filter (λ v, s !! v.2 = Some v.1) e) as Hin
    by (by apply list_elem_of_filter).
  destruct (filter _ e); [by apply elem_of_nil in Hin|simpl; lia].
Qed.

Lemma compte_pos_inv e :
  (0 < compte s e)%nat → ∃ v, v ∈ e ∧ s !! v.2 = Some v.1.
Proof.
  unfold compte. destruct (filter _ e) as [|v l] eqn:E; [simpl; lia|].
  intros _. exists v.
  assert (v ∈ filter (λ v, s !! v.2 = Some v.1) e) as Hin by (rewrite E; left).
  apply list_elem_of_filter in Hin. tauto.
Qed.

Lemma compte_bind_zero {A} (f : A → list Var) (l : list A) :
  (∀ x, x ∈ l → compte s (f x) = 0%nat) → compte s (l ≫= f) = 0%nat.
Proof.
  induction l as [|x l IH]; intros H; [done|].
  rewrite bind_cons, compte_app, H, IH; [done| |left].
  intros; apply H; by right.
Qed.

(** At most one variable of a concatenation is set when each part has at
    most one and at most one part has any. *)
Lemma compte_bind_le1 {A} (f : A → list Var) (l : list A) :
  (∀ x, x ∈ l → (compte s (f x) ≤ 1)%nat) →
  (∀ i j x y, l !! i = Some x → l !! j = Some y →
     (0 < compte s (f x))%nat → (0 < compte s (f y))%nat → i = j) →
  (compte s (l ≫= f) ≤ 1)%nat.
Proof.
  induction l as [|x l IH]; intros Hle Huniq; [unfold compte; simpl; lia|].
  rewrite bind_cons, compte_app.
  destruct (decide (compte s (f x) = 0)%nat) as [Hz|Hnz].
  - rewrite Hz. apply IH.
    + intros; apply Hle; by right.
    + intros i j a b Hi Hj Ha Hb.
      assert (S i = S j) by (by apply (Huniq (S i) (S j) a b)). lia.
  - pose proof (Hle x ltac:(left)).
    rewrite compte_bind_zero; [lia|].
    intros y Hy. apply list_elem_of_lookup in Hy as [j Hj].
    destruct (decide (compte s (f y) = 0)%nat) as [|Hny]; [done|].
    assert (0%nat = S j) by (apply (Huniq 0%nat (S j) x y); [done|done|lia..]).
    lia.
Qed.

Lemma compte_fmap_le1 {A} (g : A → Var) (l : list A) :
  (∀ i j x y, l !! i = Some x → l !! j = Some y →
     s !! (g x).2 = Some (g x).1 → s !! (g y).2 = Some (g y).1 → i = j) →
  (compte s (g <$> l) ≤ 1)%nat.
Proof.
  intros Huniq.
  assert (g <$> l = l ≫= λ x, [g x]) as ->.
  { clear. induction l as [|x l IH]; [done|]. by rewrite bind_cons, fmap_cons, IH. }
  apply compte_bind_le1.
  - intros x _. rewrite compte_cons. case_decide; unfold compte; simpl; lia.
  - intros i j x y Hi Hj Hx Hy. apply (Huniq i j x y); [done..| |].
    + apply compte_pos_inv in Hx as (v & ->%list_elem_of_singleton & Hv). done.
    + apply compte_pos_inv in Hy as (v & ->%list_elem_of_singleton & Hv). done.
Qed.

Lemma respecte_au_plus_un e name :
  (compte s e ≤ 1)%nat → respecte (affectation s) (au_plus_un e name).
Proof.
  intros Hle. unfold respecte. cbn [au_plus_un c_sense c_lhs c_rhs].
  rewrite valeur_compte, <- Zle_Qle. lia.
Qed.

Lemma respecte_au_moins_un e :
  (0 < compte s e)%nat → respecte (affectation s) (au_moins_un e).
Proof.
  intros Hpos. unfold respecte. cbn [au_moins_un c_sense c_lhs c_rhs].
  rewrite valeur_compte, <- Zle_Qle. lia.
Qed.

End comptes.

Lemma NoDup_bind_inj {A B} (g : A → list B) (l : list A) (a b : A) (x : B) :
  NoDup (l ≫= g) → a ∈ l → b ∈ l → x ∈ g a → x ∈ g b → a = b.
Proof.
  induction l as [|c l IH]; intros Hnd Ha Hb Hxa Hxb; [by apply elem_of_nil in Ha|].
  rewrite bind_cons in Hnd. apply NoDup_app in Hnd as (_ & Hdisj & Hnd).
  apply elem_of_cons in Ha as [->|Ha]; apply elem_of_cons in Hb as [->|Hb].
  - done.
  - exfalso. apply (Hdisj x Hxa). apply list_elem_of_bind. eauto.
  - exfalso. apply (Hdisj x Hxb). apply list_elem_of_bind. eauto.
  - by apply IH.
Qed.

Lemma NoDup_bind_elem {A B} (g : A → list B) (l : list A) (a : A) :
  NoDup (l ≫= g) → a ∈ l → NoDup (g a).
Proof.
  induction l as [|c l IH]; intros Hnd Ha; [by apply elem_of_nil in Ha|].
  rewrite bind_cons in Hnd. apply NoDup_app in Hnd as (Hc & _ & Hnd).
  apply elem_of_cons in Ha as [->|Ha]; [done|by apply IH].
Qed.

Lemma filter_NoDup_court (id : nat) (ids : list nat) :
  NoDup ids → (length (filter (λ k, k = id) ids) ≤ 1)%nat.
Proof.
  induction ids as [|k ids IH]; intros Hnd; [simpl; lia|].
  apply NoDup_cons in Hnd as [Hk Hnd]. rewrite filter_cons.
  case_decide as Heq; [|by apply IH].
  subst k. rewrite (filter_absent id ids Hk). simpl. lia.
Qed.

(** *** A valid sequence satisfies the model *)

Section realisabilite.

Variable slides : list slide.
Variable s : list nat.

Hypothesis Hvalide : sequence_valide slides s.

Let n := length slides.

Lemma colonne_le1 pos : (compte s ((λ i, (i, pos)) <$> seq 0 n) ≤ 1)%nat.
Proof.
  apply compte_fmap_le1. intros a b i j Ha Hb Hi Hj. cbn [fst snd] in Hi, Hj.
  apply lookup_seq in Ha as [-> _], Hb as [-> _].
  rewrite Hi in Hj. injection Hj. lia.
Qed.

Lemma rangee_le1 i : (compte s ((λ pos, (i, pos)) <$> seq 0 n) ≤ 1)%nat.
Proof.
  destruct Hvalide as (Hnd & _ & _).
  apply compte_fmap_le1. intros a b p q Ha Hb Hp Hq. cbn [fst snd] in Hp, Hq.
  apply lookup_seq in Ha as [-> _], Hb as [-> _].
  pose proof (NoDup_lookup _ _ _ _ Hnd Hp Hq). lia.
Qed.

Lemma rangee_pos i :
  (0 < compte s ((λ pos, (i, pos)) <$> seq 0 n))%nat → i ∈ s.
Proof.
  intros (v & Hv & Hsel)%compte_pos_inv.
  apply list_elem_of_fmap in Hv as (pos & -> & _). cbn [fst snd] in Hsel.
  by eapply list_elem_of_lookup_2.
Qed.

Lemma usages_pos (photo_id i : nat) (photo_ids : list nat) :
  (0 < compte s (filter (λ k, k = photo_id) photo_ids ≫= λ _,
                   (λ pos, (i, pos)) <$> seq 0 n))%nat →
  photo_id ∈ photo_ids ∧ i ∈ s.
Proof.
  intros (v & Hv & Hsel)%compte_pos_inv.
  apply list_elem_of_bind in Hv as (k & Hv & Hk).
  apply list_elem_of_filter in Hk as [-> Hk]. split; [done|].
  apply rangee_pos. by eapply compte_pos.
Qed.

Lemma usages_le1 (photo_id : nat) :
  (compte s (usages (λ i pos, (i, pos)) n photo_id
               (imap (λ slide_idx sl, (slide_idx, sl)) slides)) ≤ 1)%nat.
Proof.
  destruct Hvalide as (Hnd & Hin & Hphotos).
  unfold usages. apply compte_bind_le1.
  - intros [i [photo_ids tags]] Hi.
    apply list_elem_of_lookup in Hi as [j Hj].
    apply list_lookup_imap_Some in Hj as (sl & Hs & [= -> <-]).
    destruct (decide (j ∈ s)) as [Hjs|Hjs].
    + pose proof (NoDup_bind_elem _ _ _ Hphotos Hjs) as Hids.
      rewrite (photos_de_lookup _ _ _ Hs) in Hids. cbn [fst] in Hids.
      apply compte_bind_le1.
      * intros _ _. apply rangee_le1.
      * intros a b k k' Ha Hb _ _.
        pose proof (filter_NoDup_court photo_id photo_ids Hids).
        apply lookup_lt_Some in Ha, Hb. lia.
    + rewrite compte_bind_zero; [lia|]. intros _ _.
      destruct (decide (compte s ((λ pos, (j, pos)) <$> seq 0 n) = 0)%nat)
        as [|Hne]; [done|].
      exfalso. apply Hjs, rangee_pos. lia.
  - intros a b [i [ids t]] [j [ids' t']] Ha Hb Hi Hj.
    apply list_lookup_imap_Some in Ha as (sl & Hsa & [= -> <-]).
    apply list_lookup_imap_Some in Hb as (sl' & Hsb & [= -> <-]).
    apply usages_pos in Hi as [Hida Has], Hj as [Hidb Hbs].
    apply (NoDup_bind_inj _ _ a b photo_id Hphotos Has Hbs).
    + by rewrite (photos_de_lookup _ _ _ Hsa).
    + by rewrite (photos_de_lookup _ _ _ Hsb).
Qed.

End realisabilite.

(** X13: every non-empty sequence of slide indices that repeats no slide
    and shows no photo twice, written as an assignment, satisfies every
    constraint of the model: the model excludes no valid non-empty
    slideshow. *)
Theorem affectation_realisable (slides : list slide) (s : list nat) :
  sequence_valide slides s → s ≠ [] →
  realisable (construire_modele slides).1 (affectation s).
Proof.
  intros Hvalide Hne. set (n := length slides). split.
  - apply Forall_forall. intros d _. unfold affectation.
    case_decide; [right|left]; reflexivity.
  - assert (∀ i pos, (i < n)%nat → (pos < n)%nat →
              (creer_variables n).2 !!! (i, pos) = (i, pos)) as Hx
      by apply creer_variables_total.
    rewrite construire_modele_eq. cbn [fst m_constrs]. fold n.
    rewrite !Forall_app. split; [|split; [|split]].
    + apply Forall_fmap, Forall_forall. intros pos Hpos%elem_of_seq.
      apply respecte_au_plus_un.
      rewrite (list_fmap_ext _ (λ i, (i, pos)) (seq 0 n))
        by (intros k i Hi%lookup_seq; apply Hx; lia).
      apply colonne_le1.
    + apply Forall_fmap, Forall_forall. intros i Hi%elem_of_seq.
      apply respecte_au_plus_un.
      rewrite (list_fmap_ext _ (λ pos, (i, pos)) (seq 0 n))
        by (intros k pos Hpos%lookup_seq; apply Hx; lia).
      by apply rangee_le1.
    + apply Forall_fmap, Forall_forall. intros [photo_id us] Hus.
      apply respecte_au_plus_un.
      rewrite (entree_usages slides photo_id us Hus). by apply usages_le1.
    + apply Forall_singleton, respecte_au_moins_un.
      destruct s as [|i0 s']; [done|].
      destruct Hvalide as (_ & Hin & _). apply Forall_cons in Hin as [Hi0 _].
      apply (compte_pos _ _ (i0, 0%nat)); [|done].
      apply list_elem_of_fmap. exists i0. split; [by rewrite Hx by (fold n; lia)|].
      apply elem_of_seq. fold n. lia.
Qed.

(** ** The objective *)

Lemma foldl_concat {A B} (G : A → list B) (F : list B → A → list B)
    (l : list A) : ∀ acc,
  (∀ acc a, a ∈ l → F acc a = acc ++ G a) → foldl F acc l = acc ++ (l ≫= G).
Proof.
  induction l as [|a l IH]; intros acc HF.
  - simpl. by rewrite app_nil_r.
  - cbn [foldl]. rewrite HF by left. rewrite IH by (intros; apply HF; by right).
    by rewrite bind_cons, app_assoc.
Qed.

(** The objective in closed form: one term per position but the last and
    per ordered pair of slides. *)
Lemma objectif_eq (x : nat → nat → Var) (slides : list slide) :
  let n := length slides in
  objectif x slides =
    seq 0 (n - 1) ≫= λ pos, seq 0 n ≫= λ i, seq 0 n ≫= λ j,
      [(calculer_score (tags_de slides i) (tags_de slides j),
        x i pos, x j (pos + 1)%nat)].
Proof.
  intros n. unfold objectif, Py.range, Py.len. fold n.
  replace (Z.to_nat (Z.of_nat n - 1)) with (n - 1)%nat by lia.
  rewrite (foldl_concat (λ pos, seq 0 n ≫= λ i, seq 0 n ≫= λ j,
      [(calculer_score (tags_de slides i) (tags_de slides j),
        x i pos, x j (pos + 1)%nat)])); [done|].
  intros acc pos _.
  rewrite (foldl_concat (λ i, seq 0 n ≫= λ j,
      [(calculer_score (tags_de slides i) (tags_de slides j),
        x i pos, x j (pos + 1)%nat)])); [done|].
  intros acc' i _.
  by rewrite (foldl_concat (λ j,
      [(calculer_score (tags_de slides i) (tags_de slides j),
        x i pos, x j (pos + 1)%nat)])).
Qed.

Lemma somme_app {A} (g : A → Z) (l1 l2 : list A) :
  somme g (l1 ++ l2) = somme g l1 + somme g l2.
Proof. induction l1 as [|a l1 IH]; simpl; [done|]. rewrite IH. lia. Qed.

Lemma somme_bind {A B} (g : B → Z) (f : A → list B) (l : list A) :
  somme g (l ≫= f) = somme (λ a, somme g (f a)) l.
Proof.
  induction l as [|a l IH]; [done|].
  rewrite bind_cons, somme_app, IH. done.
Qed.

Lemma somme_ext {A} (g h : A → Z) (l : list A) :
  (∀ a, a ∈ l → g a = h a) → somme g l = somme h l.
Proof.
  induction l as [|a l IH]; intros H; simpl; [done|].
  rewrite H by left. rewrite IH by (intros; apply H; by right). done.
Qed.

Lemma somme_nulle {A} (g : A → Z) (l : list A) :
  (∀ a, a ∈ l → g a = 0) → somme g l = 0.
Proof.
  induction l as [|a l IH]; intros H; simpl; [done|].
  rewrite H by left. rewrite IH by (intros; apply H; by right). done.
Qed.

(** A sum against the indicator of one index keeps one term. *)
Lemma somme_indicatrice (g : nat → Z) (o : option nat) (m : nat) : ∀ a,
  somme (λ j, g j * (if decide (o = Some j) then 1 else 0)) (seq a m)
  = match o with
    | Some j0 => if decide (a ≤ j0 < a + m)%nat then g j0 else 0
    | None => 0
    end.
Proof.
  induction m as [|m IH]; intros a.
  - simpl. destruct o as [j0|]; [|done]. by rewrite decide_False by lia.
  - cbn [seq somme foldr]. fold (somme (λ j, g j * (if decide (o = Some j) then 1 else 0)) (seq (S a) m)).
    rewrite IH. destruct o as [j0|]; [|case_decide; [done|lia]].
    destruct (decide (Some j0 = Some a)) as [[= ->]|Hne].
    + repeat case_decide; lia.
    + assert (j0 ≠ a) by congruence. repeat case_decide; lia.
Qed.

Lemma valeur_objectif_Z (s : list nat) (obj : list (Z * Var * Var)) :
  (valeur_objectif (affectation s) obj == inject_Z (somme (terme s) obj))%Q.
Proof.
  assert (∀ v, affectation s v = inject_Z (indicatrice s v)) as Hind.
  { intros v. unfold affectation, indicatrice. by case_decide. }
  induction obj as [|[[score a] b] obj IH]; [reflexivity|].
  cbn [valeur_objectif somme foldr].
  fold (valeur_objectif (affectation s) obj). fold (somme (terme s) obj).
  rewrite IH, !Hind. unfold terme. cbn [fst snd].
  rewrite inject_Z_plus, !inject_Z_mult. reflexivity.
Qed.

Lemma somme_cons {A} (g : A → Z) (a : A) (l : list A) :
  somme g (a :: l) = g a + somme g l.
Proof. done. Qed.

Lemma somme_fmap {A B} (g : B → Z) (f : A → B) (l : list A) :
  somme g (f <$> l) = somme (λ a, g (f a)) l.
Proof.
  induction l as [|a l IH]; [done|].
  rewrite fmap_cons. cbn [somme foldr]. fold (somme g (f <$> l)).
  fold (somme (λ a, g (f a)) l). by rewrite IH.
Qed.

Lemma score_total_cons (slides : list slide) (i j : nat) (s : list nat) :
  score_total slides (i :: j :: s)
  = calculer_score (tags_de slides i) (tags_de slides j)
    + score_total slides (j :: s).
Proof. done. Qed.

(** The scores of the consecutive slides, position by position. *)
Lemma somme_consecutifs (slides : list slide) (s : list nat) : ∀ m,
  (length s ≤ m + 1)%nat →
  somme (λ pos,
           match s !! pos, s !! S pos with
           | Some i, Some j => calculer_score (tags_de slides i) (tags_de slides j)
           | _, _ => 0
           end) (seq 0 m)
  = score_total slides s.
Proof.
  induction s as [|i s IH]; intros m Hm.
  - apply somme_nulle. done.
  - destruct s as [|j s'].
    + apply somme_nulle. intros pos _. by destruct pos.
    + destruct m as [|m]; [simpl in Hm; lia|].
      rewrite score_total_cons, <- (IH m) by (simpl in *; lia).
      rewrite <- cons_seq, <- fmap_S_seq, somme_cons, somme_fmap. done.
Qed.

(** X14: under the assignment of a sequence of at most n indices of
    slides, the objective of the model is worth the sum of the scores of
    the consecutive slides of the sequence. *)
Theorem objectif_sequence (slides : list slide) (s : list nat) :
  Forall (λ i, (i < length slides)%nat) s → (length s ≤ length slides)%nat →
  (valeur_objectif (affectation s) (m_objective (construire_modele slides).1)
   == inject_Z (score_total slides s))%Q.
Proof.
  intros Hin Hlen. set (n := length slides).
  rewrite construire_modele_eq. cbn [fst m_objective]. fold n.
  rewrite valeur_objectif_Z, objectif_eq. fold n.
  apply inject_Z_injective. f_equal.
  rewrite <- (somme_consecutifs slides s (n - 1)) by lia.
  rewrite somme_bind. apply somme_ext. intros pos Hpos%elem_of_seq.
  rewrite somme_bind.
  rewrite (somme_ext _ (λ i,
             match s !! S pos with
             | Some j => calculer_score (tags_de slides i) (tags_de slides j)
             | None => 0
             end * (if decide (s !! pos = Some i) then 1 else 0))).
  - rewrite somme_indicatrice.
    destruct (s !! pos) as [i|] eqn:Hi; [|done].
    assert (i < n)%nat by (eapply Forall_lookup_1 in Hin; eauto).
    by rewrite decide_True by lia.
  - intros i Hi%elem_of_seq. rewrite somme_bind.
    rewrite (somme_ext _ (λ j,
               calculer_score (tags_de slides i) (tags_de slides j)
               * (if decide (s !! pos = Some i) then 1 else 0)
               * (if decide (s !! S pos = Some j) then 1 else 0))).
    + rewrite somme_indicatrice.
      destruct (s !! S pos) as [j|] eqn:Hj; [|lia].
      assert (j < n)%nat by (eapply Forall_lookup_1 in Hin; eauto).
      by rewrite decide_True by lia.
    + intros j Hj%elem_of_seq. cbn [somme foldr]. unfold terme. cbn [fst snd].
      rewrite !creer_variables_total by lia. unfold indicatrice. cbn [fst snd].
      replace (pos + 1)%nat with (S pos) by lia. lia.
Qed.

(** *** The objective and the extracted sequence *)

Section minoration.

Variable X : Var → Q.

Lemma valeur_objectif_cons t obj :
  (valeur_objectif X (t :: obj) == valeur_terme X t + valeur_objectif X obj)%Q.
Proof. destruct t as [[c a] b]. reflexivity. Qed.

Lemma valeur_objectif_app l1 l2 :
  (valeur_objectif X (l1 ++ l2)
   == valeur_objectif X l1 + valeur_objectif X l2)%Q.
Proof.
  induction l1 as [|t l1 IH].
  - change ([] ++ l2) with l2. change (valeur_objectif X []) with 0%Q. lra.
  - change ((t :: l1) ++ l2) with (t :: (l1 ++ l2)).
    rewrite !valeur_objectif_cons, IH. lra.
Qed.

Lemma valeur_objectif_pos obj :
  (∀ t, t ∈ obj → (0 <= valeur_terme X t)%Q) → (0 <= valeur_objectif X obj)%Q.
Proof.
  induction obj as [|t obj IH]; intros Hpos.
  - change (valeur_objectif X []) with 0%Q. lra.
  - rewrite valeur_objectif_cons.
    pose proof (Hpos t ltac:(left)).
    pose proof (IH ltac:(intros; apply Hpos; by right)). lra.
Qed.

Lemma valeur_objectif_minore obj t :
  (∀ t, t ∈ obj → (0 <= valeur_terme X t)%Q) → t ∈ obj →
  (valeur_terme X t <= valeur_objectif X obj)%Q.
Proof.
  induction obj as [|t' obj IH]; intros Hpos Hin; [by apply elem_of_nil in Hin|].
  rewrite valeur_objectif_cons.
  pose proof (Hpos t' ltac:(left)).
  pose proof (valeur_objectif_pos obj ltac:(intros; apply Hpos; by right)).
  apply elem_of_cons in Hin as [->|Hin]; [lra|].
  pose proof (IH ltac:(intros; apply Hpos; by right) Hin). lra.
Qed.

(** A sum of parts is at least the sum of lower bounds of the parts. *)
Lemma valeur_objectif_bind_minore {A} (P : A → list (Z * Var * Var))
    (L : A → Z) (l : list A) :
  (∀ a, a ∈ l → (inject_Z (L a) <= valeur_objectif X (P a))%Q) →
  (inject_Z (somme L l) <= valeur_objectif X (l ≫= P))%Q.
Proof.
  induction l as [|a l IH]; intros HL.
  - change (valeur_objectif X ([] ≫= P)) with 0%Q.
    change (inject_Z (somme L [])) with 0%Q. lra.
  - rewrite bind_cons, valeur_objectif_app, somme_cons, inject_Z_plus.
    pose proof (HL a ltac:(left)).
    pose proof (IH ltac:(intros; apply HL; by right)). lra.
Qed.

End minoration.

(** X15: for an assignment that satisfies the model, the sequence that the
    extractor returns scores at most the value of the objective: the score
    of the written slideshow never exceeds what the solver maximised.  (It
    can be less: slides placed after an empty position count in the
    objective and are not extracted.) *)
Theorem objectif_minore (slides : list slide) (X : Var → Q) :
  realisable (construire_modele slides).1 X →
  ∃ sol,
    get_solution (construire_modele slides).2 (λ v, Ok (X v)) slides = Ok sol
    ∧ (inject_Z (score_total slides sol)
       <= valeur_objectif X (m_objective (construire_modele slides).1))%Q.
Proof.
  intros Hreal%realisable_au_plus_of. set (n := length slides).
  destruct (get_solution_ok slides X) as (sol & Hsol & Hlen & Hpref & _).
  fold n in Hlen, Hpref. exists sol. split; [exact Hsol|].
  assert (∀ p i, sol !! p = Some i →
            (p < n)%nat ∧ (i < n)%nat ∧ (X (i, p) == 1)%Q) as Hsel.
  { intros p i Hp. pose proof (lookup_lt_Some _ _ _ Hp) as Hlt.
    destruct (Hpref p Hlt) as (i' & Hi' & Hin & Hret & _).
    rewrite Hp in Hi'. injection Hi' as <-.
    split; [lia|]. split; [done|].
    apply retenue_binaire; [|done]. apply (binaire slides X Hreal); [done|].
    fold n. lia. }
  assert (∀ i pos, (i < n)%nat → (pos < n)%nat →
            (creer_variables n).2 !!! (i, pos) = (i, pos)) as Hx
    by apply creer_variables_total.
  rewrite construire_modele_eq. cbn [fst m_objective]. fold n.
  rewrite objectif_eq. fold n.
  rewrite <- (somme_consecutifs slides sol (n - 1)) by lia.
  apply valeur_objectif_bind_minore. intros pos Hpos%elem_of_seq.
  assert (∀ t, t ∈ (seq 0 n ≫= λ i, seq 0 n ≫= λ j,
                 [(calculer_score (tags_de slides i) (tags_de slides j),
                   (creer_variables n).2 !!! (i, pos),
                   (creer_variables n).2 !!! (j, (pos + 1)%nat))]) →
            (0 <= valeur_terme X t)%Q) as Hpos_t.
  { intros t (i & (j & ->%list_elem_of_singleton & Hj%elem_of_seq)%list_elem_of_bind
                  & Hi%elem_of_seq)%list_elem_of_bind.
    unfold valeur_terme. cbn [fst snd]. rewrite !Hx by lia.
    assert (0 <= inject_Z (calculer_score (tags_de slides i) (tags_de slides j)))%Q.
    { rewrite calculer_score_min.
      change 0%Q with (inject_Z 0). rewrite <- Zle_Qle. lia. }
    assert (0 <= X (i, pos))%Q
      by (destruct (binaire slides X Hreal i pos) as [->| ->]; fold n; lra || lia).
    assert (0 <= X (j, (pos + 1)%nat))%Q
      by (destruct (binaire slides X Hreal j (pos + 1)) as [->| ->]; fold n; lra || lia).
    by repeat apply Qmult_le_0_compat. }
  destruct (sol !! pos) as [i0|] eqn:Hi0;
    [destruct (sol !! S pos) as [j0|] eqn:Hj0|].
  - destruct (Hsel pos i0 Hi0) as (_ & Hi & HXi).
    destruct (Hsel (S pos) j0 Hj0) as (_ & Hj & HXj).
    eapply Qle_trans; [|apply (valeur_objectif_minore X _
                 (calculer_score (tags_de slides i0) (tags_de slides j0),
                  (creer_variables n).2 !!! (i0, pos),
                  (creer_variables n).2 !!! (j0, (pos + 1)%nat)) Hpos_t)].
    + unfold valeur_terme. cbn [fst snd]. rewrite !Hx by lia.
      replace (pos + 1)%nat with (S pos) by lia. rewrite HXi, HXj. lra.
    + apply list_elem_of_bind. exists i0. split; [|apply elem_of_seq; lia].
      apply list_elem_of_bind. exists j0. split; [left|apply elem_of_seq; lia].
  - by apply valeur_objectif_pos.
  - by apply valeur_objectif_pos.
Qed.

(** ** Instances of the further properties on the sample data *)

(** X2 on the sample file. *)
Lemma lire_input_ids_witness :
  lire_input Exemple.fs "a.txt" = Ok Echantillon.catalogue
  ∧ (∀ k p, Echantillon.catalogue !! k = Some p → photo_id p = k)
  ∧ NoDup (photo_id <$> Echantillon.catalogue)
  ∧ ∃ f n, Exemple.fs "a.txt" = Some f ∧ Py.int (Py.readline f).1 = Ok n
           ∧ length Echantillon.catalogue = Z.to_nat n.
Proof.
  assert (lire_input Exemple.fs "a.txt" = Ok Echantillon.catalogue) as H
    by (vm_compute; reflexivity).
  split; [exact H|].
  exact (lire_input_ids Exemple.fs "a.txt" Echantillon.catalogue H).
Defined.

(** X3 on the sample file and the same file followed by two more lines. *)
Lemma lire_input_prefixe_witness :
  Exemple.fs "a.txt" = Some Exemple.fichier
  ∧ Echantillon.fs_long "d.txt" = Some Echantillon.fichier_long
  ∧ Py.isascii Exemple.fichier = true
  ∧ Py.isascii Echantillon.fichier_long = true
  ∧ (Py.readline Exemple.fichier).1 = (Py.readline Echantillon.fichier_long).1
  ∧ Py.int (Py.readline Exemple.fichier).1 = Ok 4
  ∧ (∀ k, (k < Z.to_nat 4)%nat →
       enregistrement Exemple.fichier k
       = enregistrement Echantillon.fichier_long k)
  ∧ lire_input Exemple.fs "a.txt" = lire_input Echantillon.fs_long "d.txt".
Proof.
  assert (Exemple.fs "a.txt" = Some Exemple.fichier) as Hf by reflexivity.
  assert (Echantillon.fs_long "d.txt" = Some Echantillon.fichier_long) as Hf'
    by reflexivity.
  assert (Py.isascii Exemple.fichier = true) as Ha
    by (vm_compute; reflexivity).
  assert (Py.isascii Echantillon.fichier_long = true) as Ha'
    by (vm_compute; reflexivity).
  assert ((Py.readline Exemple.fichier).1
          = (Py.readline Echantillon.fichier_long).1) as Hl
    by (vm_compute; reflexivity).
  assert (Py.int (Py.readline Exemple.fichier).1 = Ok 4) as Hn
    by (vm_compute; reflexivity).
  assert (∀ k, (k < Z.to_nat 4)%nat →
            enregistrement Exemple.fichier k
            = enregistrement Echantillon.fichier_long k) as Hrec.
  { intros [|[|[|[|k]]]] Hk; try (vm_compute; reflexivity).
    simpl in Hk. lia. }
  split; [exact Hf|]. split; [exact Hf'|]. split; [exact Ha|].
  split; [exact Ha'|]. split; [exact Hl|].
  split; [exact Hn|]. split; [exact Hrec|].
  exact (lire_input_prefixe Exemple.fs Echantillon.fs_long "a.txt" "d.txt"
           Exemple.fichier Echantillon.fichier_long 4 Hf Hf' Ha Ha' Hl Hn Hrec).
Defined.

(** X4 on a record that declares one tag and holds three tokens. *)
Lemma lire_ligne_tags_witness :
  lire_ligne 1 "V 1 a b c" = Ok (1%nat, "V", {["a"]})
  ∧ photo_id (1%nat, "V", ({["a"]} : gset string)) = 1%nat
  ∧ ∃ o c rest num_tags,
      jetons "V 1 a b c" = o :: c :: rest ∧ Py.int c = Ok num_tags
      ∧ photo_orientation (1%nat, "V", ({["a"]} : gset string)) = o
      ∧ photo_tags (1%nat, "V", ({["a"]} : gset string)) ⊆ list_to_set rest
      ∧ (size (photo_tags (1%nat, "V", ({["a"]} : gset string)))
         ≤ length rest)%nat.
Proof.
  assert (lire_ligne 1 "V 1 a b c" = Ok (1%nat, "V", {["a"]})) as H
    by (vm_compute; reflexivity).
  split; [exact H|].
  exact (lire_ligne_tags 1 "V 1 a b c" (1%nat, "V", {["a"]}) H).
Defined.

(** X6 on the slides of the sample file, with a solver state that raises
    [AttributeError] and with an empty dictionary of variables. *)
Lemma get_solution_erreurs_witness :
  Exemple.slides ≠ []
  ∧ get_solution (construire_modele Exemple.slides).2
                 (λ _, Raise AttributeError) Exemple.slides
    = Raise AttributeError
  ∧ get_solution ∅ (λ _, Ok 0%Q) Exemple.slides = Raise KeyError.
Proof.
  assert (Exemple.slides ≠ []) as H by discriminate.
  split; [exact H|].
  destruct (get_solution_erreurs Exemple.slides AttributeError
              (λ _, Ok 0%Q) ∅ H) as [H1 H2].
  split; [exact H1|]. apply H2. apply lookup_empty.
Defined.

(** X7 on the slides of the sample file: slide 2, then slide 0. *)
Lemma ecrire_solution_format_witness :
  Forall (λ i, (i < length Exemple.slides)%nat) [2%nat; 0%nat]
  ∧ ecrire_solution [2%nat; 0%nat] Exemple.slides
    = (Py.str (length [2%nat; 0%nat]) +:+ Py.nl
       +:+ lignes_ecrites (photos_de Exemple.slides <$> [2%nat; 0%nat]), None).
Proof.
  assert (Forall (λ i, (i < length Exemple.slides)%nat) [2%nat; 0%nat]) as H
    by (repeat constructor; simpl; lia).
  split; [exact H|].
  exact (ecrire_solution_format [2%nat; 0%nat] Exemple.slides H).
Defined.

(** X8 on the slides of the sample file: slide 1, then the index 7, which
    no slide has, then slide 0. *)
Lemma ecrire_solution_hors_bornes_witness :
  Forall (λ i, (i < length Exemple.slides)%nat) [1%nat]
  ∧ (length Exemple.slides ≤ 7)%nat
  ∧ ecrire_solution ([1%nat] ++ 7%nat :: [0%nat]) Exemple.slides
    = (Py.str (length ([1%nat] ++ 7%nat :: [0%nat])) +:+ Py.nl
       +:+ lignes_ecrites (photos_de Exemple.slides <$> [1%nat]),
       Some IndexError).
Proof.
  assert (Forall (λ i, (i < length Exemple.slides)%nat) [1%nat]) as H
    by (repeat constructor; simpl; lia).
  assert (length Exemple.slides ≤ 7)%nat as Hidx by (simpl; lia).
  split; [exact H|]. split; [exact Hidx|].
  exact (ecrire_solution_hors_bornes [1%nat] 7 [0%nat] Exemple.slides H Hidx).
Defined.

(** X12 on the slides of the sample file: slide 1, then slide 0. *)
Lemma get_solution_affectation_witness :
  Forall (λ i, (i < length Exemple.slides)%nat) Echantillon.sequence
  ∧ (length Echantillon.sequence ≤ length Exemple.slides)%nat
  ∧ get_solution (construire_modele Exemple.slides).2
                 (λ v, Ok (affectation Echantillon.sequence v)) Exemple.slides
    = Ok Echantillon.sequence.
Proof.
  assert (Forall (λ i, (i < length Exemple.slides)%nat) Echantillon.sequence)
    as H by (repeat constructor; simpl; lia).
  assert (length Echantillon.sequence ≤ length Exemple.slides)%nat as Hlen
    by (simpl; lia).
  split; [exact H|]. split; [exact Hlen|].
  exact (get_solution_affectation Exemple.slides Echantillon.sequence H Hlen).
Defined.

(** X13 on the same sequence. *)
Lemma affectation_realisable_witness :
  sequence_valide Exemple.slides Echantillon.sequence
  ∧ Echantillon.sequence ≠ []
  ∧ realisable (construire_modele Exemple.slides).1
               (affectation Echantillon.sequence).
Proof.
  assert (sequence_valide Exemple.slides Echantillon.sequence) as H.
  { split; [|split].
    - apply (bool_decide_unpack _). vm_compute. exact I.
    - repeat constructor; simpl; lia.
    - apply (bool_decide_unpack _). vm_compute. exact I. }
  assert (Echantillon.sequence ≠ []) as Hne by discriminate.
  split; [exact H|]. split; [exact Hne|].
  exact (affectation_realisable Exemple.slides Echantillon.sequence H Hne).
Defined.

(** X14 on the same sequence. *)
Lemma objectif_sequence_witness :
  Forall (λ i, (i < length Exemple.slides)%nat) Echantillon.sequence
  ∧ (length Echantillon.sequence ≤ length Exemple.slides)%nat
  ∧ (valeur_objectif (affectation Echantillon.sequence)
                     (m_objective (construire_modele Exemple.slides).1)
     == inject_Z (score_total Exemple.slides Echantillon.sequence))%Q.
Proof.
  assert (Forall (λ i, (i < length Exemple.slides)%nat) Echantillon.sequence)
    as H by (repeat constructor; simpl; lia).
  assert (length Echantillon.sequence ≤ length Exemple.slides)%nat as Hlen
    by (simpl; lia).
  split; [exact H|]. split; [exact Hlen|].
  exact (objectif_sequence Exemple.slides Echantillon.sequence H Hlen).
Defined.

(** X15 on four slides with position 1 left empty. *)
Lemma objectif_minore_witness :
  realisable (construire_modele Echantillon.diapos).1 Echantillon.X_trou
  ∧ ∃ sol,
      get_solution (construire_modele Echantillon.diapos).2
                   (λ v, Ok (Echantillon.X_trou v)) Echantillon.diapos = Ok sol
      ∧ (inject_Z (score_total Echantillon.diapos sol)
         <= valeur_objectif Echantillon.X_trou
              (m_objective (construire_modele Echantillon.diapos).1))%Q.
Proof.
  assert (realisable (construire_modele Echantillon.diapos).1 Echantillon.X_trou)
    as H by (apply realisable_b_correct; vm_compute; reflexivity).
  split; [exact H|].
  exact (objectif_minore Echantillon.diapos Echantillon.X_trou H).
Defined.

(** On that input the inequality is strict: the extracted sequence is slide
    0 alone and scores 0, while the objective counts the transition from
    slide 2 to slide 3 and is 1. *)
Lemma objectif_strict :
  get_solution (construire_modele Echantillon.diapos).2
               (λ v, Ok (Echantillon.X_trou v)) Echantillon.diapos = Ok [0%nat]
  ∧ score_total Echantillon.diapos [0%nat] = 0
  ∧ (valeur_objectif Echantillon.X_trou
       (m_objective (construire_modele Echantillon.diapos).1) == 1)%Q.
Proof. split; [|split]; vm_compute; reflexivity. Qed.
